(** * ststore: the sharetoken store of wireleap/common

    A shallow embedding of [ststore/ststore.go]: the three-level index
    [k1 -> k2 -> k3 -> sharetoken], the operations [Add], [Del], [Filter],
    [SettlingAt] and the constructor [New] that replays the files found
    on disk through [Add].

    Go maps are finite maps ([gmap]); the reader/writer mutex is left out,
    every operation below is one critical section.  The sharetoken type,
    its JSON form and its [IsSettlingAt] predicate belong to another package
    and are parameters of the development; a [*sharetoken.T] is taken by
    value, as a token nobody changes once it is in the store. *)

From stdpp Require Import ssreflect gmap strings list fin_maps sorting.
From Stdlib Require Import ZArith.

Set Warnings "-rewrite-rw".

Local Open Scope list_scope.

(** ** Errors *)

(** [DuplicateSTError] is the package's own error value; every other error
    comes out of the file store and is kept as its message. *)
Inductive error : Type :=
| DuplicateSTError
| IOError (msg : string).

(** ** Strings *)

(** [strings.HasSuffix(s, suffix)]:
    [len(s) >= len(suffix) && s[len(s)-len(suffix):] == suffix]. *)
Definition HasSuffix (s suffix : string) : bool :=
  (String.length suffix <=? String.length s)%nat &&
  String.eqb
    (String.substring (String.length s - String.length suffix)
                      (String.length suffix) s)
    suffix.

(** The order in which [filepath.Walk] visits the names of a directory. *)
Definition name_le (a b : string) : Prop := Is_true (String.leb a b).

Definition sort_names (l : list string) : list string :=
  merge_sort name_le l.

(** [ps[n-2:n]] for a slice of path segments; the slice expression panics
    when [n < 2], which is [None] here. *)
Definition last_two (ps : list string) : option (list string) :=
  if decide (2 <= length ps)%nat then Some (drop (length ps - 2) ps) else None.

(** ** The file store ([fsdir.T]) *)

(** A call made to the file store, with the path segments it was given. *)
Inductive fscall : Type :=
| CallGet (ps : list string)
| CallSet (ps : list string)
| CallDel (ps : list string).

Section Model.

Context {Token Bytes : Type}.

(** The (de)serialisation of a sharetoken to the bytes of its file. *)
Variable encode : Token -> Bytes.
Variable decode : Bytes -> option Token.

(** [st.IsSettlingAt(utime)] of the sharetoken package. *)
Variable IsSettlingAt : Token -> Z -> bool.

(** Modelled from the spec: the package [cli/fsdir] is not among the
    sources.  The spec describes it as path-segment-addressed storage that
    reads, writes and deletes one serialized record and deletes a whole
    [k1] group, over a root directory with one subdirectory per [k1] and
    one file per token in it.  [path] holds the segments of the root
    directory's path, [files] maps a directory name to its files,
    [faults] scripts the outcome of the coming calls ([Some msg]: the call
    fails with that message and leaves the files alone; [None], or no
    entry left: the call goes through), and [calls] records every call
    made, oldest first. *)
Record fsdir : Type := mkfsdir {
  path : list string;
  files : gmap string (gmap string Bytes);
  faults : list (option string);
  calls : list fscall
}.

(** Modelled from the spec: the bookkeeping of every call of [cli/fsdir],
    which consumes one scripted outcome and records the call. *)
Definition fs_enter (c : fscall) (fs : fsdir) : option string * fsdir :=
  (mjoin (head (faults fs)),
   {| path := path fs; files := files fs;
      faults := tail (faults fs); calls := calls fs ++ [c] |}).

Definition fs_with_files (fs : fsdir)
    (f : gmap string (gmap string Bytes)) : fsdir :=
  {| path := path fs; files := f; faults := faults fs; calls := calls fs |}.

(** Modelled from the spec: [m.Set(st, d, f)] of [cli/fsdir], the write of
    a single serialized record at a path, which makes the directory when it
    is not there. *)
Definition fsdir_Set (st : Token) (ps : list string) (fs : fsdir)
    : option error * fsdir :=
  let '(fault, fs1) := fs_enter (CallSet ps) fs in
  match fault with
  | Some msg => (Some (IOError msg), fs1)
  | None =>
      match ps with
      | [d; f] =>
          (None,
           fs_with_files fs1
             (<[d := <[f := encode st]> (default ∅ (files fs1 !! d))]>
                (files fs1)))
      | _ => (Some (IOError "not a record path"), fs1)
      end
  end.

(** Modelled from the spec: [m.Get(st, d, f)] of [cli/fsdir], the read of
    a single record at a path, deserialised into [st]. *)
Definition fsdir_Get (ps : list string) (fs : fsdir)
    : (error + Token) * fsdir :=
  let '(fault, fs1) := fs_enter (CallGet ps) fs in
  match fault with
  | Some msg => (inl (IOError msg), fs1)
  | None =>
      match ps with
      | [d; f] =>
          match default ∅ (files fs1 !! d) !! f with
          | None => (inl (IOError "no such file"), fs1)
          | Some b =>
              match decode b with
              | None => (inl (IOError "cannot deserialize"), fs1)
              | Some st => (inr st, fs1)
              end
          end
      | _ => (inl (IOError "not a record path"), fs1)
      end
  end.

(** Modelled from the spec: [m.Del] of [cli/fsdir].  [m.Del(d, f)] deletes
    a single record, [m.Del(d)] the whole group [d]; deleting what is not
    there is not an error. *)
Definition fsdir_Del (ps : list string) (fs : fsdir)
    : option error * fsdir :=
  let '(fault, fs1) := fs_enter (CallDel ps) fs in
  match fault with
  | Some msg => (Some (IOError msg), fs1)
  | None =>
      match ps with
      | [d] => (None, fs_with_files fs1 (delete d (files fs1)))
      | [d; f] =>
          match files fs1 !! d with
          | None => (None, fs1)
          | Some dir =>
              (None, fs_with_files fs1 (<[d := delete f dir]> (files fs1)))
          end
      | _ => (Some (IOError "not a record path"), fs1)
      end
  end.

(** ** The store *)

(** [KeyFunc]: the three keys of a sharetoken. *)
Definition KeyFunc : Type := Token -> string * string * string.

(** [T], without its mutex.  [sts] is the [st3map]; a key bound in a
    Go map is a key bound here.  The inner maps the code stores are never
    nil and the tokens it is given are not nil pointers, so a test such as
    [t.sts[k1] == nil] is [sts t !! k1 = None]. *)
Record T : Type := mkT {
  m : fsdir;
  sts : gmap string (gmap string (gmap string Token));
  keyf : KeyFunc
}.

(** [t.sts[k1][k2][k3]], where reading a nil map gives nil. *)
Definition leaf (s : gmap string (gmap string (gmap string Token)))
    (k1 k2 k3 : string) : option Token :=
  default ∅ (default ∅ (s !! k1) !! k2) !! k3.

(** [Add]: lines 72-99. *)
Definition Add (st : Token) (t : T) : option error * T :=
  let '(k1, k2, k3) := keyf t st in
  (* if t.sts[k1] == nil { t.sts[k1] = st2map{} } *)
  let s1 := match sts t !! k1 with
            | None => <[k1 := ∅]> (sts t)
            | Some _ => sts t
            end in
  (* if t.sts[k1][k2] == nil { t.sts[k1][k2] = st1map{} } *)
  let m1 := default ∅ (s1 !! k1) in
  let m1' := match m1 !! k2 with
             | None => <[k2 := ∅]> m1
             | Some _ => m1
             end in
  let s2 := <[k1 := m1']> s1 in
  let m2 := default ∅ (m1' !! k2) in
  match m2 !! k3 with
  | None =>
      (* t.sts[k1][k2][k3] = st *)
      let s3 := <[k1 := <[k2 := <[k3 := st]> m2]> m1']> s2 in
      (* err = t.m.Set(st, k1, k3+".json") *)
      let '(err, fs) := fsdir_Set st [k1; k3 +:+ ".json"] (m t) in
      (err, {| m := fs; sts := s3; keyf := keyf t |})
  | Some _ =>
      (Some DuplicateSTError, {| m := m t; sts := s2; keyf := keyf t |})
  end.

(** [Del]: lines 104-132. *)
Definition Del (st : Token) (t : T) : option error * T :=
  let '(k1, k2, k3) := keyf t st in
  match sts t !! k1 with
  | None => (None, t)
  | Some m1 =>
      match m1 !! k2 with
      | None => (None, t)
      | Some m2 =>
          match m2 !! k3 with
          | None => (None, t)
          | Some _ =>
              (* delete(t.sts[k1][k2], k3) *)
              let m2' := delete k3 m2 in
              let m1' := <[k2 := m2']> m1 in
              let s1 := <[k1 := m1']> (sts t) in
              (* err = t.m.Del(k1, k3+".json") *)
              let '(err, fs1) := fsdir_Del [k1; k3 +:+ ".json"] (m t) in
              match err with
              | Some e => (Some e, {| m := fs1; sts := s1; keyf := keyf t |})
              | None =>
                  (* if len(t.sts[k1][k2]) == 0 { delete(t.sts[k1], k2) } *)
                  let m1'' := if decide (size m2' = 0)%nat
                              then delete k2 m1' else m1' in
                  let s2 := <[k1 := m1'']> s1 in
                  (* if len(t.sts[k1]) == 0 { delete(t.sts, k1); err = t.m.Del(k1) } *)
                  if decide (size m1'' = 0)%nat then
                    let '(err2, fs2) := fsdir_Del [k1] fs1 in
                    (err2, {| m := fs2; sts := delete k1 s2; keyf := keyf t |})
                  else
                    (None, {| m := fs1; sts := s2; keyf := keyf t |})
              end
          end
      end
  end.

(** The values of a map in the order a [range] loop meets them; Go leaves
    that order open, here it is the order of [map_to_list]. *)
Definition values {A : Type} (mp : gmap string A) : list A :=
  (map_to_list mp).*2.

(** [Filter]: lines 137-173. *)
Definition Filter (k1 k2 : string) (t : T) : list Token :=
  if decide (k1 = "" ∧ k2 = "") then
    m1 ← values (sts t); m2 ← values m1; values m2
  else if decide (k1 = "") then
    m1 ← values (sts t); values (default ∅ (m1 !! k2))
  else if decide (k2 = "") then
    m2 ← values (default ∅ (sts t !! k1)); values m2
  else
    values (default ∅ (default ∅ (sts t !! k1) !! k2)).

(** [SettlingAt]: lines 177-187.  [r[rpk]++] reads a missing key as 0.
    The count is an [int]; it is bounded by the length of a slice, so it
    does not wrap. *)
Definition SettlingAt (rpk : string) (utime : Z) (t : T) : gmap string Z :=
  foldl (fun (r : gmap string Z) st =>
           if IsSettlingAt st utime
           then <[rpk := (default 0 (r !! rpk) + 1)%Z]> r
           else r)
        ∅ (Filter "" rpk t).

(** ** Construction *)

(** How a call of [New] ends: it returns the store together with its
    error result, or the slice expression of line 57 panics. *)
Inductive outcome : Type :=
| Returned (err : option error) (t : T)
| Panicked.

(** The function [New] hands to [filepath.Walk], lines 46-64: [p] are the
    segments of the visited path (what [strings.Split(path, "/")] gives),
    [name] is [info.Name()] and [werr] the error of the walk itself. *)
Definition walkfn (p : list string) (name : string) (werr : option error)
    (t : T) : outcome :=
  match werr with
  | Some e => Returned (Some e) t
  | None =>
      if negb (HasSuffix name ".json") then Returned None t
      else
        match last_two p with
        | None => Panicked
        | Some ps =>
            let '(r, fs) := fsdir_Get ps (m t) in
            let t1 := {| m := fs; sts := sts t; keyf := keyf t |} in
            match r with
            | inl e => Returned (Some e) t1
            | inr st => let '(err, t2) := Add st t1 in Returned err t2
            end
        end
  end.

(** One step of the walk: stop at the first error or panic. *)
Definition andthen (o : outcome) (f : T -> outcome) : outcome :=
  match o with
  | Returned None t => f t
  | other => other
  end.

(** The files of one directory: [filepath.Walk] of the Go library reads
    the sorted names of the directory, calls the function on the directory
    itself, then on each name in turn.  The walk itself does not fail
    here. *)
Definition walk_dir (d : string) (t : T) : outcome :=
  let names := sort_names (map_to_list (default ∅ (files (m t) !! d))).*1 in
  foldl (fun o f => andthen o (walkfn (path (m t) ++ [d; f]) f None))
        (walkfn (path (m t) ++ [d]) d None t)
        names.

(** The whole walk from the root directory. *)
Definition walk (t : T) : outcome :=
  let dirs := sort_names (map_to_list (files (m t))).*1 in
  foldl (fun o d => andthen o (walk_dir d))
        (walkfn (path (m t)) (default "" (last (path (m t)))) None t)
        dirs.

(** [New]: lines 38-67.  [disk] is the directory [fsdir.New(dir)] opens,
    as found; opening it can fail like any other call. *)
Definition New (disk : fsdir) (kf : KeyFunc) : outcome :=
  let t := {| m := {| path := path disk; files := files disk;
                      faults := tail (faults disk); calls := calls disk |};
              sts := ∅; keyf := kf |} in
  match mjoin (head (faults disk)) with
  | Some msg => Returned (Some (IOError msg)) t
  | None => walk t
  end.

End Model.

Arguments fsdir : clear implicits.
Arguments T : clear implicits.
Arguments KeyFunc : clear implicits.
Arguments outcome : clear implicits.

(** ** Vocabulary of the properties *)

Section Properties.

Context {Token Bytes : Type}.
Variable encode : Token -> Bytes.

(** No empty inner mapping: every [k2] map bound in the index is
    non-empty, and so is every [k3] map bound in one of them. *)
Definition no_empty (s : gmap string (gmap string (gmap string Token)))
    : Prop :=
  map_Forall (fun _ (m1 : gmap string (gmap string Token)) =>
                m1 ≠ ∅ ∧
                map_Forall (fun _ (m2 : gmap string Token) => m2 ≠ ∅) m1) s.

(** The index after [t.sts[k1][k2][k3] = st], whatever levels had to be
    made on the way. *)
Definition ins3 (k1 k2 k3 : string) (st : Token)
    (s : gmap string (gmap string (gmap string Token)))
    : gmap string (gmap string (gmap string Token)) :=
  <[k1 := <[k2 := <[k3 := st]> (default ∅ (default ∅ (s !! k1) !! k2))]>
            (default ∅ (s !! k1))]> s.

(** Every token of the index sits under the keys its own [keyf] gives. *)
Definition keyed (t : T Token Bytes) : Prop :=
  ∀ k1 k2 k3 st, leaf (sts t) k1 k2 k3 = Some st → keyf t st = (k1, k2, k3).

(** The store [New] starts from (line 39), over a given directory. *)
Definition init (fs : fsdir Bytes) (kf : KeyFunc Token) : T Token Bytes :=
  {| m := fs; sts := ∅; keyf := kf |}.

(** A directory with nothing in it and no failure ahead. *)
Definition empty_dir (root : list string) : fsdir Bytes :=
  {| path := root; files := ∅; faults := []; calls := [] |}.

(** The directory a later process finds: the same files, its own calls. *)
Definition reopen (fs : fsdir Bytes) : fsdir Bytes :=
  {| path := path fs; files := files fs; faults := []; calls := [] |}.

(** Sequences of mutations. *)
Inductive op : Type :=
| OpAdd (st : Token)
| OpDel (st : Token).

Definition step (o : op) (t : T Token Bytes) : option error * T Token Bytes :=
  match o with
  | OpAdd st => Add encode st t
  | OpDel st => Del st t
  end.

Definition run (os : list op) (t : T Token Bytes) : T Token Bytes :=
  foldl (fun t o => (step o t).2) t os.

(** The error results of the operations of a run, in order. *)
Fixpoint results (os : list op) (t : T Token Bytes) : list (option error) :=
  match os with
  | [] => []
  | o :: os' => (step o t).1 :: results os' (step o t).2
  end.

(** [Del st] finds its leaf and the deletion of the leaf's file fails. *)
Definition file_del_fails (st : Token) (t : T Token Bytes) : bool :=
  let '(k1, k2, k3) := keyf t st in
  match leaf (sts t) k1 k2 k3 with
  | None => false
  | Some _ =>
      match (fsdir_Del [k1; k3 +:+ ".json"] (m t)).1 with
      | Some _ => true
      | None => false
      end
  end.

(** No [Del] of the run meets a failing file deletion. *)
Fixpoint file_dels_ok (os : list op) (t : T Token Bytes) : bool :=
  match os with
  | [] => true
  | o :: os' =>
      match o with
      | OpAdd _ => true
      | OpDel st => negb (file_del_fails st t)
      end && file_dels_ok os' (step o t).2
  end.

(** The index laid out flat: one entry per leaf, with its three keys. *)
Definition entries (s : gmap string (gmap string (gmap string Token)))
    : list (string * string * string * Token) :=
  '(k1, m1) ← map_to_list s;
  '(k2, m2) ← map_to_list m1;
  '(k3, st) ← map_to_list m2;
  [(k1, k2, k3, st)].

(** The spec's reading of a [Filter] argument: the empty string matches
    every value at its level, any other string only itself. *)
Definition key_matches (pat k : string) : bool :=
  bool_decide (pat = "" ∨ pat = k).

(** [Filter] as the spec words it: the tokens of the entries whose first
    two keys match the arguments. *)
Definition Filter_spec (k1 k2 : string) (t : T Token Bytes) : list Token :=
  (filter (fun e : string * string * string * Token =>
             key_matches k1 e.1.1.1 && key_matches k2 e.1.1.2 = true)
          (entries (sts t))).*2.

(** The map [SettlingAt] holds once it has counted [n] tokens. *)
Definition counted (rpk : string) (n : nat) : gmap string Z :=
  if decide (n = 0) then ∅ else {[rpk := Z.of_nat n]}.

(** The file [Add] writes a token to: directory [k1], file [k3.json]. *)
Definition file_of (kf : KeyFunc Token) (st : Token) : string * string :=
  let '(k1, _, k3) := kf st in (k1, k3 +:+ ".json").

(** The first and third key of a token: what its place on disk is made
    of. *)
Definition disk_keys (kf : KeyFunc Token) (st : Token) : string * string :=
  ((kf st).1.1, (kf st).2).

(** A string that is one path segment naming an entry of a directory: not
    empty, not [.] or [..], without a separator. *)
Definition plain_name (s : string) : bool :=
  negb (bool_decide (s ∈ [""; "."; ".."])) &&
  forallb (fun c => negb (Ascii.eqb c (Ascii.ascii_of_nat 47)))
          (String.list_ascii_of_string s).

(** The keys of the token give the two-level layout the file store is
    modelled for, one the walk of [New] reads back: [k1] names a
    directory and does not end in [.json], [k3.json] names a file. *)
Definition storable (kf : KeyFunc Token) (st : Token) : Prop :=
  plain_name (kf st).1.1 = true ∧
  HasSuffix (kf st).1.1 ".json" = false ∧
  plain_name ((kf st).2 +:+ ".json") = true.

(** The state of the walk of [New] over a directory whose files [F] are
    those of the tokens [ts]: the files in [X] have been read, the index
    holds their tokens and no other, and the disk is as it was found. *)
Definition reload_inv (kf : KeyFunc Token) (ts : list Token)
    (F : gmap string (gmap string Bytes)) (root : list string)
    (X : gset (string * string)) (t : T Token Bytes) : Prop :=
  files (m t) = F ∧ faults (m t) = [] ∧ path (m t) = root ∧
  keyf t = kf ∧ no_empty (sts t) ∧
  ∀ a b c x, leaf (sts t) a b c = Some x ↔
             x ∈ ts ∧ kf x = (a, b, c) ∧ file_of kf x ∈ X.

(** The content of a file of the directory, if it is there. *)
Definition content (fs : fsdir Bytes) (d f : string) : option Bytes :=
  default ∅ (files fs !! d) !! f.

(** Every leaf taken in the first store is taken in the second. *)
Definition grows (t t' : T Token Bytes) : Prop :=
  ∀ a b c, is_Some (leaf (sts t) a b c) → is_Some (leaf (sts t') a b c).

(** The state of the walk of [New] over any directory, whose files were
    [F0] when the walk began: every file of [F0] is still there, and a file
    holds what it held in [F0] or the record of a token whose leaf is
    taken. *)
Definition replay_inv (kf : KeyFunc Token)
    (F0 : gmap string (gmap string Bytes)) (t : T Token Bytes) : Prop :=
  keyf t = kf ∧
  (∀ d f, is_Some (default ∅ (F0 !! d) !! f) → is_Some (content (m t) d f)) ∧
  (∀ d f bts, content (m t) d f = Some bts →
     default ∅ (F0 !! d) !! f = Some bts ∨
     ∃ x, bts = encode x ∧
          is_Some (leaf (sts t) (kf x).1.1 (kf x).1.2 (kf x).2)).

(** A successful outcome. *)
Definition ok (o : outcome Token Bytes) : Prop := ∃ t, o = Returned None t.

(** The state of the walk of [New], with where its tokens come from: on
    top of [replay_inv], the index has no empty inner mapping and each of
    its tokens sits under its own keys and is what a [.json] file of [F0]
    deserialises to. *)
Definition loaded_inv (decode : Bytes -> option Token) (kf : KeyFunc Token)
    (F0 : gmap string (gmap string Bytes)) (t : T Token Bytes) : Prop :=
  replay_inv kf F0 t ∧ no_empty (sts t) ∧
  ∀ a b c x, leaf (sts t) a b c = Some x →
    kf x = (a, b, c) ∧
    ∃ d f bts, default ∅ (F0 !! d) !! f = Some bts ∧
               HasSuffix f ".json" = true ∧ decode bts = Some x.

End Properties.

(** ** A concrete instance *)

Module Example.

(** A stand-in for [sharetoken.T]: the three strings a key function
    reads and a settlement window. *)
Record tok : Type := mktok {
  contract : string;
  relay : string;
  sig : string;
  settle_open : Z;
  settle_close : Z
}.

Definition key3 : KeyFunc tok := fun t => (contract t, relay t, sig t).

Definition settling (t : tok) (utime : Z) : bool :=
  (settle_open t <=? utime)%Z && (utime <? settle_close t)%Z.

(** File contents: a token, or something that does not parse. *)
Definition enc (t : tok) : option tok := Some t.
Definition dec (b : option tok) : option tok := b.

Definition a1 : tok := mktok "c1" "r1" "s1" 10 20.
Definition a2 : tok := mktok "c1" "r2" "s2" 10 20.
Definition a3 : tok := mktok "c2" "r1" "s3" 30 40.
(** Same contract and signature as [a1], another relay. *)
Definition a4 : tok := mktok "c1" "r9" "s1" 10 20.
(** A token whose second key is the empty string. *)
Definition a5 : tok := mktok "c1" "" "s5" 10 20.

Definition root : list string := [""; "var"; "sts"].

Definition disk0 : fsdir (option tok) := empty_dir root.

(** The same empty directory, whose second call will fail. *)
Definition disk_fail2 : fsdir (option tok) :=
  {| path := root; files := ∅; faults := [None; Some "EIO"]; calls := [] |}.

(** The same empty directory, whose first call will fail. *)
Definition disk_fail1 : fsdir (option tok) :=
  {| path := root; files := ∅; faults := [Some "EIO"]; calls := [] |}.

Definition t0 : T tok (option tok) := init disk0 key3.

(** [a1] added to the empty store, over each of the directories. *)
Definition t1 : T tok (option tok) := (Add enc a1 t0).2.
Definition t1_fail2 : T tok (option tok) :=
  (Add enc a1 (init disk_fail2 key3)).2.

(** The three tokens [a1], [a2], [a3], and then [a5], added in turn. *)
Definition t3 : T tok (option tok) :=
  run enc [OpAdd a1; OpAdd a2; OpAdd a3] t0.
Definition t3_5 : T tok (option tok) := (Add enc a5 t3).2.

(** [a1] and [a4], which differ in their second key only. *)
Definition t14 : T tok (option tok) := run enc [OpAdd a1; OpAdd a4] t0.

(** A token whose first key ends in [.json]. *)
Definition a6 : tok := mktok "c.json" "r1" "s6" 10 20.
Definition t6 : T tok (option tok) := run enc [OpAdd a6] t0.

(** A directory with a record that does not parse. *)
Definition disk_bad : fsdir (option tok) :=
  {| path := root; files := {["c1" := {["s1.json" := None]}]};
     faults := []; calls := [] |}.

(** A directory with the record of [a1] in two files. *)
Definition disk_dup : fsdir (option tok) :=
  {| path := root;
     files := {["c1" := {["s1.json" := Some a1; "copy.json" := Some a1]}]};
     faults := []; calls := [] |}.

(** The store [New] builds over the directory the three tokens left. *)
Definition t3_reloaded : T tok (option tok) :=
  match New enc dec (reopen (m t3)) key3 with
  | Returned _ t => t
  | Panicked => t0
  end.


(** The maps under ["c1"] and under ["c1"], ["r1"] once [a1] is in. *)
Definition leaves_a1 : gmap string tok := {["s1" := a1]}.
Definition relays_a1 : gmap string (gmap string tok) :=
  {["r1" := leaves_a1]}.

End Example.

(** * Properties *)

Section Proofs.

Context {Token Bytes : Type}.
Variable encode : Token -> Bytes.
Variable decode : Bytes -> option Token.
Variable IsSettlingAt : Token -> Z -> bool.

Implicit Types (t : T Token Bytes) (st : Token) (fs : fsdir Bytes).
Implicit Types (s : gmap string (gmap string (gmap string Token))).
Implicit Types (k a b c d f : string).

(** ** Strings *)

Lemma length_append (a b : string) :
  String.length (a +:+ b) = String.length a + String.length b.
Proof. induction a as [|c a IH]; [done|]. by rewrite /= IH. Qed.

Lemma substring_all (b : string) :
  String.substring 0 (String.length b) b = b.
Proof. induction b as [|c b IH]; [done|]. by rewrite /= IH. Qed.

Lemma substring_append (a b : string) :
  String.substring (String.length a) (String.length b) (a +:+ b) = b.
Proof. induction a as [|c a IH]; [apply substring_all|done]. Qed.

Lemma HasSuffix_append (a b : string) : HasSuffix (a +:+ b) b = true.
Proof.
  rewrite /HasSuffix length_append. apply andb_true_iff. split.
  - apply Nat.leb_le. lia.
  - replace (String.length a + String.length b - String.length b)
      with (String.length a) by lia.
    rewrite substring_append. apply String.eqb_refl.
Qed.

Lemma append_inj_l (a b sfx : string) : a +:+ sfx = b +:+ sfx → a = b.
Proof.
  revert b. induction a as [|c a IH]; intros [|c' b] E; simpl in E.
  - done.
  - apply (f_equal String.length) in E. rewrite /= !length_append /= in E. lia.
  - apply (f_equal String.length) in E. rewrite /= !length_append /= in E. lia.
  - injection E as -> E. f_equal. by apply IH.
Qed.

(** ** The index *)

Lemma leaf_Some s k1 k2 k3 st :
  leaf s k1 k2 k3 = Some st ↔
  ∃ m1 m2, s !! k1 = Some m1 ∧ m1 !! k2 = Some m2 ∧ m2 !! k3 = Some st.
Proof.
  unfold leaf. split.
  - destruct (s !! k1) as [m1|] eqn:E1; simpl; [|by rewrite lookup_empty].
    destruct (m1 !! k2) as [m2|] eqn:E2; simpl; [|by rewrite lookup_empty].
    intros E3. by exists m1, m2.
  - intros (m1 & m2 & -> & E2 & E3). simpl. by rewrite E2.
Qed.

Lemma leaf_ins3 s k1 k2 k3 st a b c :
  leaf (ins3 k1 k2 k3 st s) a b c =
  if decide ((a, b, c) = (k1, k2, k3)) then Some st else leaf s a b c.
Proof.
  unfold leaf, ins3. case_decide as E.
  - inversion E; subst. by rewrite lookup_insert_eq /= lookup_insert_eq /=
      lookup_insert_eq.
  - destruct (decide (a = k1)) as [->|N1];
      [rewrite lookup_insert_eq /=|by rewrite lookup_insert_ne].
    destruct (decide (b = k2)) as [->|N2];
      [rewrite lookup_insert_eq /=|by rewrite lookup_insert_ne].
    rewrite lookup_insert_ne; [done|congruence].
Qed.

Lemma Add_fresh st t k1 k2 k3 :
  keyf t st = (k1, k2, k3) →
  leaf (sts t) k1 k2 k3 = None →
  Add encode st t =
    ((fsdir_Set encode st [k1; k3 +:+ ".json"] (m t)).1,
     {| m := (fsdir_Set encode st [k1; k3 +:+ ".json"] (m t)).2;
        sts := ins3 k1 k2 k3 st (sts t);
        keyf := keyf t |}).
Proof.
  intros Hk Hl. unfold Add, leaf, ins3 in *. rewrite Hk.
  destruct (sts t !! k1) as [m1|] eqn:E1; simpl in *.
  - rewrite E1 /=. destruct (m1 !! k2) as [m2|] eqn:E2; simpl in *.
    + rewrite E2 /= Hl. destruct (fsdir_Set _ _ _ _) as [e fs'] eqn:ES.
      simpl. by rewrite (insert_id (sts t) k1 m1) // insert_insert_eq.
    + rewrite lookup_insert_eq /= lookup_empty.
      destruct (fsdir_Set _ _ _ _) as [e fs'] eqn:ES. simpl.
      by rewrite !insert_insert_eq.
  - rewrite lookup_insert_eq /= lookup_empty lookup_insert_eq /= lookup_empty.
    destruct (fsdir_Set _ _ _ _) as [e fs'] eqn:ES. simpl.
    by rewrite !insert_insert_eq.
Qed.

Lemma Add_taken st t k1 k2 k3 old :
  keyf t st = (k1, k2, k3) →
  leaf (sts t) k1 k2 k3 = Some old →
  Add encode st t = (Some DuplicateSTError, t).
Proof.
  intros Hk (m1 & m2 & E1 & E2 & E3)%leaf_Some.
  unfold Add. rewrite Hk E1 /= E1 /= E2 /= E2 /= E3.
  rewrite (insert_id (sts t) k1 m1) //. by destruct t.
Qed.

(** ** Reading the index through [Filter] *)

Lemma values_empty {A : Type} : values (∅ : gmap string A) = [].
Proof. by rewrite /values map_to_list_empty. Qed.

Lemma bind_key_miss {A B : Type} (l : list (string * A)) k
    (g : A → list B) :
  k ∉ l.*1 →
  l ≫= (λ p, if decide (k = p.1) then g p.2 else []) = [].
Proof.
  induction l as [|[k' v] l IH]; [done|].
  rewrite fmap_cons not_elem_of_cons bind_cons /=. intros [Hne Hl].
  rewrite decide_False //. by apply IH.
Qed.

Lemma bind_key_hit {A B : Type} (l : list (string * A)) k v
    (g : A → list B) :
  NoDup l.*1 → (k, v) ∈ l →
  l ≫= (λ p, if decide (k = p.1) then g p.2 else []) = g v.
Proof.
  induction l as [|[k' v'] l IH]; [by intros _ ?%elem_of_nil|].
  rewrite fmap_cons NoDup_cons bind_cons /=. intros [Hk' Hnd] Hin.
  apply elem_of_cons in Hin as [[= <- <-]|Hin].
  - rewrite decide_True // bind_key_miss // app_nil_r //.
  - rewrite decide_False; [by apply IH|].
    intros ->. apply Hk', list_elem_of_fmap. by exists (k', v).
Qed.

(** Ranging over a map and keeping one key is reading that key. *)
Lemma range_one_key {A B : Type} (mp : gmap string A) k (g : A → list B) :
  map_to_list mp ≫= (λ p, if decide (k = p.1) then g p.2 else []) =
  from_option g [] (mp !! k).
Proof.
  destruct (mp !! k) as [v|] eqn:E; simpl.
  - apply bind_key_hit; [apply NoDup_fst_map_to_list|].
    by apply elem_of_map_to_list.
  - apply bind_key_miss. intros ([k' v] & -> & Hin)%list_elem_of_fmap.
    apply elem_of_map_to_list in Hin. simpl in *. congruence.
Qed.

Lemma range_all {A B : Type} (mp : gmap string A) (g : A → list B) :
  map_to_list mp ≫= (λ p, g p.2) = values mp ≫= g.
Proof. by rewrite /values list_fmap_bind. Qed.

Lemma fmap_filter_bind {A B C : Type} (P : B → Prop)
    `{!∀ x, Decision (P x)} (h : B → C) (g : A → list B) (l : list A) :
  h <$> filter P (l ≫= g) = l ≫= (λ x, h <$> filter P (g x)).
Proof.
  induction l as [|x l IH]; [done|].
  by rewrite !bind_cons filter_app fmap_app IH.
Qed.

Lemma elem_of_entries s a b c st :
  (a, b, c, st) ∈ entries s ↔ leaf s a b c = Some st.
Proof.
  rewrite leaf_Some /entries. split.
  - intros ([k1 m1] & ([k2 m2] & ([k3 st'] & Hin & H3)%list_elem_of_bind
              & H2)%list_elem_of_bind & H1)%list_elem_of_bind.
    apply list_elem_of_singleton in Hin as [= -> -> -> ->].
    exists m1, m2. by rewrite -!elem_of_map_to_list.
  - intros (m1 & m2 & H1 & H2 & H3).
    apply list_elem_of_bind. exists (a, m1).
    split; [|by apply elem_of_map_to_list].
    apply list_elem_of_bind. exists (b, m2).
    split; [|by apply elem_of_map_to_list].
    apply list_elem_of_bind. exists (c, st).
    split; [by apply list_elem_of_singleton|by apply elem_of_map_to_list].
Qed.

(** The spec's [Filter], level by level. *)
Lemma Filter_spec_levels k1 k2 t :
  Filter_spec k1 k2 t =
  map_to_list (sts t) ≫= (λ p1,
    if key_matches k1 p1.1
    then map_to_list p1.2 ≫= (λ p2,
           if key_matches k2 p2.1 then values p2.2 else [])
    else []).
Proof.
  rewrite /Filter_spec /entries fmap_filter_bind.
  apply list_bind_ext; [|done]. intros [a m1]. simpl.
  rewrite fmap_filter_bind.
  destruct (key_matches k1 a) eqn:Ea; simpl.
  - apply list_bind_ext; [|done]. intros [b m2]. simpl.
    rewrite fmap_filter_bind /values.
    destruct (key_matches k2 b) eqn:Eb; simpl.
    + induction (map_to_list m2) as [|[c st] l IH]; [done|].
      rewrite bind_cons fmap_cons -IH /=.
      rewrite filter_cons_True /=; [|by rewrite Ea Eb]. done.
    + induction (map_to_list m2) as [|[c st] l IH]; [done|].
      rewrite bind_cons -IH /=.
      rewrite filter_cons_False /=; [|by rewrite Ea Eb]. done.
  - induction (map_to_list m1) as [|[b m2] l IH]; [done|].
    rewrite bind_cons IH app_nil_r fmap_filter_bind. clear IH.
    induction (map_to_list m2) as [|[c st] l' IH]; [done|].
    rewrite bind_cons IH app_nil_r /=.
    rewrite filter_cons_False /=; [|by rewrite Ea]. done.
Qed.

Lemma key_matches_empty k : key_matches "" k = true.
Proof. rewrite /key_matches bool_decide_eq_true. by left. Qed.

Lemma key_matches_fixed pat k :
  pat ≠ "" → key_matches pat k = bool_decide (pat = k).
Proof. intros Hpat. rewrite /key_matches. apply bool_decide_ext.
  split; [by intros [?|?]|by right]. Qed.

Lemma range_wild {A B : Type} (mp : gmap string A) (g : A → list B) :
  map_to_list mp ≫= (λ p, if key_matches "" p.1 then g p.2 else []) =
  values mp ≫= g.
Proof.
  rewrite -range_all. apply list_bind_ext; [|done].
  intros [k v]. by rewrite key_matches_empty.
Qed.

Lemma range_fixed {A B : Type} (mp : gmap string A) pat (g : A → list B) :
  pat ≠ "" →
  map_to_list mp ≫= (λ p, if key_matches pat p.1 then g p.2 else []) =
  from_option g [] (mp !! pat).
Proof.
  intros Hpat. rewrite -range_one_key. apply list_bind_ext; [|done].
  intros [k v]. rewrite key_matches_fixed //=.
  by destruct (decide (pat = k));
    [rewrite bool_decide_true|rewrite bool_decide_false].
Qed.

(** [Filter] is the spec's [Filter], list for list. *)
Lemma Filter_is_spec k1 k2 t : Filter k1 k2 t = Filter_spec k1 k2 t.
Proof.
  rewrite Filter_spec_levels /Filter.
  case_decide as N0; [destruct N0 as [-> ->]|
    case_decide as N1; [subst k1; assert (k2 ≠ "") as N2 by naive_solver|
      case_decide as N2; [subst k2|]]].
  - rewrite (range_wild _ (λ m1 : gmap string (gmap string Token),
      map_to_list m1 ≫= (λ p2,
        if key_matches "" p2.1 then values p2.2 else []))).
    apply list_bind_ext; [|done]. intros m1.
    by rewrite (range_wild m1 values).
  - rewrite (range_wild _ (λ m1 : gmap string (gmap string Token),
      map_to_list m1 ≫= (λ p2,
        if key_matches k2 p2.1 then values p2.2 else []))).
    apply list_bind_ext; [|done]. intros m1.
    rewrite (range_fixed m1 k2 values) //.
    destruct (m1 !! k2); [done|by rewrite /= values_empty].
  - rewrite (range_fixed _ k1 (λ m1 : gmap string (gmap string Token),
      map_to_list m1 ≫= (λ p2,
        if key_matches "" p2.1 then values p2.2 else []))) //.
    destruct (sts t !! k1) as [m1|]; simpl.
    + by rewrite (range_wild m1 values).
    + by rewrite values_empty.
  - rewrite (range_fixed _ k1 (λ m1 : gmap string (gmap string Token),
      map_to_list m1 ≫= (λ p2,
        if key_matches k2 p2.1 then values p2.2 else []))) //.
    destruct (sts t !! k1) as [m1|]; simpl.
    + rewrite (range_fixed m1 k2 values) //.
      destruct (m1 !! k2); [done|by rewrite /= values_empty].
    + by rewrite lookup_empty /= values_empty.
Qed.

(** What [Filter] returns, by membership. *)
Lemma elem_of_Filter k1 k2 t st :
  st ∈ Filter k1 k2 t ↔
  ∃ a b c, leaf (sts t) a b c = Some st ∧
           (k1 = "" ∨ k1 = a) ∧ (k2 = "" ∨ k2 = b).
Proof.
  rewrite Filter_is_spec /Filter_spec list_elem_of_fmap. split.
  - intros ([[[a b] c] st'] & -> & [HP Hin]%list_elem_of_filter).
    exists a, b, c. apply elem_of_entries in Hin. simpl in *.
    apply andb_true_iff in HP as [H1 H2].
    by rewrite /key_matches !bool_decide_eq_true in H1 H2.
  - intros (a & b & c & Hl & H1 & H2). exists (a, b, c, st).
    split; [done|]. apply list_elem_of_filter. split.
    + simpl. apply andb_true_iff.
      by rewrite /key_matches !bool_decide_eq_true.
    + by apply elem_of_entries.
Qed.

(** ** [Add] *)

Lemma fsdir_Set_calls st ps fs :
  calls (fsdir_Set encode st ps fs).2 = calls fs ++ [CallSet ps].
Proof.
  rewrite /fsdir_Set /fs_enter.
  destruct (mjoin (head (faults fs))); [done|].
  by destruct ps as [|? [|? [|? ?]]].
Qed.

Lemma fsdir_Del_calls ps fs :
  calls (fsdir_Del ps fs).2 = calls fs ++ [CallDel ps].
Proof.
  rewrite /fsdir_Del /fs_enter.
  destruct (mjoin (head (faults fs))); [done|].
  destruct ps as [|d [|f [|? ?]]]; try done.
  simpl. by destruct (files fs !! d).
Qed.

Lemma Add_keyf st t : keyf (Add encode st t).2 = keyf t.
Proof.
  rewrite /Add. destruct (keyf t st) as [[k1 k2] k3].
  destruct (_ !! k3); [done|]. by destruct (fsdir_Set _ _ _ _).
Qed.

(** C1: when the leaf is free and the write of the record fails, [Add]
    returns the error of the write and the token stays in the index: the
    leaf holds it and [Filter] on its first two keys returns it.  The
    one call made to the file store is that write at [(k1, k3.json)]. *)
Theorem Add_write_failure_keeps_token st t k1 k2 k3 e :
  keyf t st = (k1, k2, k3) →
  leaf (sts t) k1 k2 k3 = None →
  (fsdir_Set encode st [k1; k3 +:+ ".json"] (m t)).1 = Some e →
  ∃ t', Add encode st t = (Some e, t') ∧
        leaf (sts t') k1 k2 k3 = Some st ∧
        st ∈ Filter k1 k2 t' ∧
        calls (m t') = calls (m t) ++ [CallSet [k1; k3 +:+ ".json"]].
Proof.
  intros Hk Hfree Hw. eexists. rewrite (Add_fresh _ _ _ _ _ Hk Hfree) Hw.
  split; [done|]. simpl.
  assert (leaf (ins3 k1 k2 k3 st (sts t)) k1 k2 k3 = Some st) as Hl
    by by rewrite leaf_ins3 decide_True.
  split; [done|]. split; [|apply fsdir_Set_calls].
  apply elem_of_Filter. exists k1, k2, k3. auto.
Qed.

(** C2: when the leaf already holds a token, [Add] returns
    [DuplicateSTError] and the store it leaves is the store it found:
    index and file store (with its record of calls) are the same, and
    the leaf still holds the token it held. *)
Theorem Add_duplicate_no_change st t k1 k2 k3 old :
  keyf t st = (k1, k2, k3) →
  leaf (sts t) k1 k2 k3 = Some old →
  Add encode st t = (Some DuplicateSTError, t) ∧
  sts (Add encode st t).2 = sts t ∧
  m (Add encode st t).2 = m t ∧
  leaf (sts (Add encode st t).2) k1 k2 k3 = Some old.
Proof.
  intros Hk Hl. by rewrite (Add_taken _ _ _ _ _ _ Hk Hl).
Qed.

(** Adding the same token a second time is always a duplicate, whatever
    the first call returned. *)
Lemma Add_twice st t :
  Add encode st (Add encode st t).2 =
    (Some DuplicateSTError, (Add encode st t).2).
Proof.
  destruct (keyf t st) as [[k1 k2] k3] eqn:Hk.
  destruct (leaf (sts t) k1 k2 k3) as [old|] eqn:Hl.
  - rewrite (Add_taken _ _ _ _ _ _ Hk Hl) /=. by eapply Add_taken.
  - rewrite (Add_fresh _ _ _ _ _ Hk Hl) /=.
    eapply (Add_taken _ _ k1 k2 k3 st); [done|].
    by rewrite /= leaf_ins3 decide_True.
Qed.

(** ** [Del] *)

Lemma leaf_None s k1 k2 k3 :
  leaf s k1 k2 k3 = None ↔
  s !! k1 = None ∨
  (∃ m1, s !! k1 = Some m1 ∧ m1 !! k2 = None) ∨
  (∃ m1 m2, s !! k1 = Some m1 ∧ m1 !! k2 = Some m2 ∧ m2 !! k3 = None).
Proof.
  rewrite /leaf. destruct (s !! k1) as [m1|] eqn:E1; simpl.
  - destruct (m1 !! k2) as [m2|] eqn:E2; simpl.
    + split; [intros; right; right; by exists m1, m2|].
      intros [?|[(? & ? & ?)|(? & ? & ? & ? & ?)]]; simplify_eq. done.
    + rewrite lookup_empty. split; [intros; right; left; by exists m1|done].
  - rewrite lookup_empty. split; [by left|done].
Qed.

Lemma Del_absent st t k1 k2 k3 :
  keyf t st = (k1, k2, k3) →
  leaf (sts t) k1 k2 k3 = None →
  Del st t = (None, t).
Proof.
  intros Hk Hl. rewrite /Del Hk.
  apply leaf_None in Hl
    as [->|[(m1 & -> & ->)|(m1 & m2 & -> & -> & ->)]]; done.
Qed.

Lemma Del_keyf st t : keyf (Del st t).2 = keyf t.
Proof.
  rewrite /Del. destruct (keyf t st) as [[k1 k2] k3].
  destruct (sts t !! k1) as [m1|]; [|done].
  destruct (m1 !! k2) as [m2|]; [|done].
  destruct (m2 !! k3); [|done].
  destruct (fsdir_Del [k1; _] _) as [[e|] fs1]; [done|].
  case_decide; case_decide; try done; by destruct (fsdir_Del [k1] _).
Qed.

(** Whatever [Del] returns, the leaf of its token is free afterwards. *)
Lemma Del_leaf_free st t k1 k2 k3 :
  keyf t st = (k1, k2, k3) →
  leaf (sts (Del st t).2) k1 k2 k3 = None.
Proof.
  intros Hk.
  destruct (leaf (sts t) k1 k2 k3) as [old|] eqn:Hl;
    [|by rewrite (Del_absent _ _ _ _ _ Hk Hl)].
  apply leaf_Some in Hl as (m1 & m2 & E1 & E2 & E3).
  rewrite /Del Hk E1 E2 E3.
  destruct (fsdir_Del [k1; _] _) as [[e|] fs1]; simpl.
  { by rewrite /leaf lookup_insert_eq /= lookup_insert_eq /= lookup_delete_eq. }
  case_decide as Hz2; case_decide as Hz1;
    try destruct (fsdir_Del [k1] _) as [e2 fs2]; simpl; rewrite /leaf;
    rewrite ?lookup_delete_eq ?lookup_insert_eq /=
      ?lookup_delete_eq ?lookup_insert_eq /= ?lookup_delete_eq
      ?lookup_empty //.
Qed.

(** [Del] when the leaf is there and its file has been deleted: the two
    tests on [len] and what follows them. *)
Lemma Del_found st t k1 k2 k3 m1 m2 old :
  keyf t st = (k1, k2, k3) →
  sts t !! k1 = Some m1 → m1 !! k2 = Some m2 → m2 !! k3 = Some old →
  (fsdir_Del [k1; k3 +:+ ".json"] (m t)).1 = None →
  Del st t =
    let fs1 := (fsdir_Del [k1; k3 +:+ ".json"] (m t)).2 in
    let m1'' := if decide (size (delete k3 m2) = 0)
                then delete k2 (<[k2 := delete k3 m2]> m1)
                else <[k2 := delete k3 m2]> m1 in
    if decide (size m1'' = 0) then
      ((fsdir_Del [k1] fs1).1,
       {| m := (fsdir_Del [k1] fs1).2;
          sts := delete k1 (<[k1 := m1'']>
                   (<[k1 := <[k2 := delete k3 m2]> m1]> (sts t)));
          keyf := keyf t |})
    else
      (None, {| m := fs1;
                sts := <[k1 := m1'']>
                         (<[k1 := <[k2 := delete k3 m2]> m1]> (sts t));
                keyf := keyf t |}).
Proof.
  intros Hk E1 E2 E3 Hd. rewrite /Del Hk E1 E2 E3.
  destruct (fsdir_Del [k1; _] _) as [r fs1]. simpl in Hd. subst r.
  simpl. case_decide; case_decide; try done;
    by destruct (fsdir_Del [k1] fs1).
Qed.

(** C4: when the leaf is there and the deletion of its file fails, [Del]
    returns that error at once: the leaf is gone from the index but the
    [k2] map (left as it is, empty or not) and the [k1] map are still
    bound, and the failed file deletion is the only call made to the file
    store, so no group deletion was tried. *)
Theorem Del_file_failure_no_pruning st t k1 k2 k3 m1 m2 old e :
  keyf t st = (k1, k2, k3) →
  sts t !! k1 = Some m1 → m1 !! k2 = Some m2 → m2 !! k3 = Some old →
  (fsdir_Del [k1; k3 +:+ ".json"] (m t)).1 = Some e →
  ∃ t', Del st t = (Some e, t') ∧
        sts t' = <[k1 := <[k2 := delete k3 m2]> m1]> (sts t) ∧
        sts t' !! k1 = Some (<[k2 := delete k3 m2]> m1) ∧
        default ∅ (sts t' !! k1) !! k2 = Some (delete k3 m2) ∧
        leaf (sts t') k1 k2 k3 = None ∧
        calls (m t') = calls (m t) ++ [CallDel [k1; k3 +:+ ".json"]].
Proof.
  intros Hk E1 E2 E3 Hd. rewrite /Del Hk E1 E2 E3.
  pose proof (fsdir_Del_calls [k1; k3 +:+ ".json"] (m t)) as Hc.
  destruct (fsdir_Del [k1; _] _) as [r fs1]. simpl in Hd, Hc. subst r.
  eexists. split; [done|]. simpl. rewrite lookup_insert_eq /= lookup_insert_eq.
  repeat split; try done.
  by rewrite /leaf lookup_insert_eq /= lookup_insert_eq /= lookup_delete_eq.
Qed.

(** C5: when the leaf is there and the deletion of its file succeeds,
    [Del] prunes.  If the [k3] map keeps other tokens, only the leaf
    goes.  If it became empty, its [k2] entry is removed from the [k1]
    map; and if the [k1] map is empty after that, the [k1] entry is
    removed from the index and the deletion of the directory [k1] is
    asked of the file store: [Del] returns what that call returns, and
    when it goes through the directory is gone from the disk. *)
Theorem Del_success_prunes st t k1 k2 k3 m1 m2 old :
  keyf t st = (k1, k2, k3) →
  sts t !! k1 = Some m1 → m1 !! k2 = Some m2 → m2 !! k3 = Some old →
  (fsdir_Del [k1; k3 +:+ ".json"] (m t)).1 = None →
  let fs1 := (fsdir_Del [k1; k3 +:+ ".json"] (m t)).2 in
  (delete k3 m2 ≠ ∅ →
     Del st t = (None, {| m := fs1;
                          sts := <[k1 := <[k2 := delete k3 m2]> m1]> (sts t);
                          keyf := keyf t |})) ∧
  (delete k3 m2 = ∅ → delete k2 m1 ≠ ∅ →
     Del st t = (None, {| m := fs1;
                          sts := <[k1 := delete k2 m1]> (sts t);
                          keyf := keyf t |})) ∧
  (delete k3 m2 = ∅ → delete k2 m1 = ∅ →
     Del st t = ((fsdir_Del [k1] fs1).1,
                 {| m := (fsdir_Del [k1] fs1).2;
                    sts := delete k1 (sts t);
                    keyf := keyf t |}) ∧
     calls (m (Del st t).2) =
       calls (m t) ++ [CallDel [k1; k3 +:+ ".json"]; CallDel [k1]] ∧
     ((Del st t).1 = None → files (m (Del st t).2) !! k1 = None)).
Proof.
  intros Hk E1 E2 E3 Hd fs1.
  pose proof (fsdir_Del_calls [k1; k3 +:+ ".json"] (m t)) as Hc.
  rewrite (Del_found st t k1 k2 k3 m1 m2 old) //. fold fs1.
  simpl.
  destruct (decide (size (delete k3 m2) = 0)) as [Hz2|Hz2];
    rewrite map_size_empty_iff in Hz2.
  - rewrite delete_insert_eq.
    destruct (decide (size (delete k2 m1) = 0)) as [Hz1|Hz1];
      rewrite map_size_empty_iff in Hz1;
      (split; [done|split; [try done|try done]]).
    + intros _ _. rewrite !delete_insert_eq. split; [done|]. simpl. split.
      * by rewrite fsdir_Del_calls Hc -assoc.
      * rewrite /fsdir_Del /fs_enter.
        destruct (mjoin (head (faults fs1))); [done|].
        intros _. apply lookup_delete_eq.
    + intros _ _. by rewrite insert_insert_eq.
  - destruct (decide (size (<[k2:=delete k3 m2]> m1) = 0)) as [Hz1|Hz1];
      rewrite map_size_empty_iff in Hz1.
    { apply (f_equal (.!! k2)) in Hz1.
      by rewrite lookup_insert_eq lookup_empty in Hz1. }
    split; [|done]. intros _. by rewrite insert_insert_eq.
Qed.

(** C6: when a level of the path of the token's keys is missing, [Del]
    does nothing and returns no error: the store, file store and record
    of calls included, is the one it was given.  And after [Add] then
    [Del] of a token, whatever they returned, one more [Del] of it does
    nothing and returns no error. *)
Theorem Del_absent_noop st t k1 k2 k3 :
  keyf t st = (k1, k2, k3) →
  (sts t !! k1 = None ∨
   (∃ m1, sts t !! k1 = Some m1 ∧ m1 !! k2 = None) ∨
   (∃ m1 m2, sts t !! k1 = Some m1 ∧ m1 !! k2 = Some m2 ∧
             m2 !! k3 = None)) →
  Del st t = (None, t) ∧
  let t2 := (Del st (Add encode st t).2).2 in
  Del st t2 = (None, t2).
Proof.
  intros Hk Habs. split.
  - apply (Del_absent _ _ _ _ _ Hk). by apply leaf_None.
  - simpl. set (t1 := (Add encode st t).2).
    assert (keyf t1 st = (k1, k2, k3)) as Hk1 by by rewrite /t1 Add_keyf.
    apply (Del_absent _ _ k1 k2 k3); [by rewrite Del_keyf|].
    by apply Del_leaf_free.
Qed.

(** [Del] of a token is idempotent from any store. *)
Lemma Del_twice st t : Del st (Del st t).2 = (None, (Del st t).2).
Proof.
  destruct (keyf t st) as [[k1 k2] k3] eqn:Hk.
  apply (Del_absent _ _ k1 k2 k3); [by rewrite Del_keyf|].
  by apply Del_leaf_free.
Qed.

(** ** No empty inner mapping *)

Lemma no_empty_empty : no_empty (∅ : gmap string (gmap string (gmap string Token))).
Proof. apply map_Forall_empty. Qed.

Lemma no_empty_lookup s k1 m1 :
  no_empty s → s !! k1 = Some m1 →
  map_Forall (λ _ (m2 : gmap string Token), m2 ≠ ∅) m1.
Proof. intros Hs E1. by destruct (Hs k1 m1 E1). Qed.

Lemma no_empty_ins3 s k1 k2 k3 st :
  no_empty s → no_empty (ins3 k1 k2 k3 st s).
Proof.
  intros Hs. apply map_Forall_insert_2; [|done].
  split; [apply insert_non_empty|].
  apply map_Forall_insert_2; [apply insert_non_empty|].
  destruct (s !! k1) as [m1|] eqn:E1; simpl.
  - by eapply no_empty_lookup.
  - apply map_Forall_empty.
Qed.

Lemma Add_sts st t k1 k2 k3 :
  keyf t st = (k1, k2, k3) →
  sts (Add encode st t).2 =
    match leaf (sts t) k1 k2 k3 with
    | Some _ => sts t
    | None => ins3 k1 k2 k3 st (sts t)
    end.
Proof.
  intros Hk. destruct (leaf (sts t) k1 k2 k3) as [old|] eqn:Hl.
  - by rewrite (Add_taken _ _ _ _ _ _ Hk Hl).
  - by rewrite (Add_fresh _ _ _ _ _ Hk Hl).
Qed.

Lemma Add_no_empty st t :
  no_empty (sts t) → no_empty (sts (Add encode st t).2).
Proof.
  intros Hs. destruct (keyf t st) as [[k1 k2] k3] eqn:Hk.
  rewrite (Add_sts _ _ _ _ _ Hk).
  destruct (leaf _ _ _ _); [done|by apply no_empty_ins3].
Qed.

Lemma Del_no_empty st t :
  no_empty (sts t) → file_del_fails st t = false →
  no_empty (sts (Del st t).2).
Proof.
  intros Hs. rewrite /file_del_fails.
  destruct (keyf t st) as [[k1 k2] k3] eqn:Hk.
  destruct (leaf (sts t) k1 k2 k3) as [old|] eqn:Hl;
    [|by rewrite (Del_absent _ _ _ _ _ Hk Hl)].
  apply leaf_Some in Hl as (m1 & m2 & E1 & E2 & E3).
  destruct (fsdir_Del [k1; _] _) as [[e|] fs1] eqn:Hd; [done|]. intros _.
  pose proof (no_empty_lookup _ _ _ Hs E1) as Hm1.
  rewrite (Del_found st t k1 k2 k3 m1 m2 old) //; [|by rewrite Hd].
  simpl.
  destruct (decide (size (delete k3 m2) = 0)) as [Hz2|Hz2];
    rewrite map_size_empty_iff in Hz2.
  - rewrite delete_insert_eq.
    destruct (decide (size (delete k2 m1) = 0)) as [Hz1|Hz1];
      rewrite map_size_empty_iff in Hz1; simpl.
    + rewrite !delete_insert_eq. by apply map_Forall_delete.
    + rewrite insert_insert_eq. apply map_Forall_insert_2; [|done].
      split; [done|]. by apply map_Forall_delete.
  - destruct (decide (size (<[k2:=delete k3 m2]> m1) = 0)) as [Hz1|Hz1];
      rewrite map_size_empty_iff in Hz1.
    { apply (f_equal (.!! k2)) in Hz1.
      by rewrite lookup_insert_eq lookup_empty in Hz1. }
    simpl. rewrite insert_insert_eq. apply map_Forall_insert_2; [|done].
    split; [apply insert_non_empty|]. by apply map_Forall_insert_2.
Qed.

(** C3, as the code has it: over a sequence of [Add] and [Del] in which
    no [Del] meets a failing deletion of its leaf's file, an index
    without empty inner mappings stays without them; the index [New]
    starts from has none.  ([Add] keeps the invariant whether its write
    fails or not, and so does a failing deletion of a whole group.) *)
Theorem no_empty_run os t :
  no_empty (sts t) →
  file_dels_ok encode os t = true →
  no_empty (sts (run encode os t)).
Proof.
  revert t. induction os as [|o os IH]; intros t Hs Hok; [done|].
  simpl in Hok. apply andb_true_iff in Hok as [Ho Hok].
  rewrite /run /=. apply IH; [|done].
  destruct o as [st|st]; simpl.
  - by apply Add_no_empty.
  - apply Del_no_empty; [done|]. by apply negb_true_iff.
Qed.

(** ** [SettlingAt] *)

Lemma SettlingAt_fold rpk utime (l : list Token) (n : nat) :
  foldl (λ (r : gmap string Z) st,
           if IsSettlingAt st utime
           then <[rpk := (default 0 (r !! rpk) + 1)%Z]> r
           else r)
        (counted rpk n) l =
  counted rpk (n + length (filter (λ st, IsSettlingAt st utime = true) l)).
Proof.
  revert n. induction l as [|st l IH]; intros n; simpl.
  { by rewrite Nat.add_0_r. }
  destruct (IsSettlingAt st utime) eqn:E.
  - rewrite filter_cons_True //= -Nat.add_succ_comm -IH. f_equal.
    rewrite /counted. destruct n as [|n]; simpl.
    + by rewrite lookup_empty insert_empty.
    + rewrite lookup_singleton_eq insert_singleton_eq /=. f_equal. lia.
  - rewrite filter_cons_False; [|by rewrite E]. apply IH.
Qed.

(** C8: [SettlingAt rpk utime] is the empty map when no token of
    [Filter "" rpk] is settling at [utime], and otherwise the map with
    the one key [rpk], bound to the number of those tokens.  So it has at
    most one entry, its only possible key is [rpk], and a bound value is
    never zero. *)
Theorem SettlingAt_counts rpk utime t :
  let n := length (filter (λ st, IsSettlingAt st utime = true)
                          (Filter "" rpk t)) in
  SettlingAt IsSettlingAt rpk utime t =
    (if decide (n = 0) then ∅ else {[rpk := Z.of_nat n]}) ∧
  size (SettlingAt IsSettlingAt rpk utime t) ≤ 1 ∧
  (∀ k v, SettlingAt IsSettlingAt rpk utime t !! k = Some v →
          k = rpk ∧ v = Z.of_nat n ∧ v ≠ 0%Z) ∧
  (n = 0 → SettlingAt IsSettlingAt rpk utime t = ∅).
Proof.
  intros n.
  assert (SettlingAt IsSettlingAt rpk utime t = counted rpk n) as ->.
  { rewrite /SettlingAt. by rewrite (SettlingAt_fold rpk utime _ 0). }
  rewrite /counted. split; [done|]. case_decide as Hn.
  - rewrite map_size_empty. split; [lia|]. split; [|done].
    intros k v. by rewrite lookup_empty.
  - rewrite map_size_singleton. split; [lia|]. split; [|done].
    intros k v [<- <-]%lookup_singleton_Some. split; [done|].
    split; [done|lia].
Qed.

(** ** [Filter] and its wildcards *)

Lemma filter_all {A : Type} (P : A → Prop) `{!∀ x, Decision (P x)}
    (l : list A) :
  (∀ x, P x) → filter P l = l.
Proof.
  intros HP. induction l as [|x l IH]; [done|].
  by rewrite filter_cons_True // IH.
Qed.

Lemma NoDup_entries s : NoDup (entries s).*1.
Proof.
  apply NoDup_fmap_fst.
  { intros [[a b] c] y1 y2 H1%elem_of_entries H2%elem_of_entries. congruence. }
  apply NoDup_bind; [| |apply NoDup_map_to_list].
  { intros [a m1] [a' m1'] [[[x y] z] w] H1 H1'
      ([b m2] & ([c st] & Hin & _)%list_elem_of_bind & _)%list_elem_of_bind
      ([b' m2'] & ([c' st'] & Hin' & _)%list_elem_of_bind & _)%list_elem_of_bind.
    apply list_elem_of_singleton in Hin as [= -> -> -> ->].
    apply list_elem_of_singleton in Hin' as [= -> _ _ _].
    apply elem_of_map_to_list in H1, H1'. congruence. }
  intros [a m1] H1. apply NoDup_bind; [| |apply NoDup_map_to_list].
  { intros [b m2] [b' m2'] [[[x y] z] w] H2 H2'
      ([c st] & Hin & _)%list_elem_of_bind
      ([c' st'] & Hin' & _)%list_elem_of_bind.
    apply list_elem_of_singleton in Hin as [= -> -> -> ->].
    apply list_elem_of_singleton in Hin' as [= -> _ _].
    apply elem_of_map_to_list in H2, H2'. congruence. }
  intros [b m2] H2. apply NoDup_bind; [| |apply NoDup_map_to_list].
  { intros [c st] [c' st'] [[[x y] z] w] H3 H3'
      [= -> -> -> ->]%list_elem_of_singleton
      [= -> ->]%list_elem_of_singleton. done. }
  intros [c st] _. apply NoDup_singleton.
Qed.

(** C7: [Filter] reads the empty string as "every value at this level".
    With [entries] the leaves of the index, each listed once with its
    keys: [Filter "" ""] returns the tokens of all of them; [Filter "" k2]
    with [k2] not empty those whose second key is [k2]; [Filter k1 ""]
    with [k1] not empty those whose first key is [k1]; [Filter k1 k2] with
    neither empty those under exactly [(k1, k2)]; each up to the order of
    the result, which may be empty. *)
Theorem Filter_wildcards t :
  Filter "" "" t ≡ₚ (entries (sts t)).*2 ∧
  (∀ k2, k2 ≠ "" →
     Filter "" k2 t ≡ₚ
     (filter (λ e : string * string * string * Token, e.1.1.2 = k2)
             (entries (sts t))).*2) ∧
  (∀ k1, k1 ≠ "" →
     Filter k1 "" t ≡ₚ
     (filter (λ e : string * string * string * Token, e.1.1.1 = k1)
             (entries (sts t))).*2) ∧
  (∀ k1 k2, k1 ≠ "" → k2 ≠ "" →
     Filter k1 k2 t ≡ₚ
     (filter (λ e : string * string * string * Token,
                e.1.1.1 = k1 ∧ e.1.1.2 = k2)
             (entries (sts t))).*2) ∧
  (∀ k1 k2, Filter k1 k2 t ≡ₚ Filter_spec k1 k2 t) ∧
  NoDup (entries (sts t)).*1 ∧
  (∀ a b c st, (a, b, c, st) ∈ entries (sts t) ↔
               leaf (sts t) a b c = Some st).
Proof.
  split; [|split; [|split; [|split; [|split; [|split]]]]].
  - by rewrite Filter_is_spec /Filter_spec filter_all.
  - intros k2 N2. rewrite Filter_is_spec /Filter_spec.
    rewrite (list_filter_iff _ (λ e, e.1.1.2 = k2)); [done|].
    intros e. rewrite key_matches_empty key_matches_fixed //=.
    rewrite bool_decide_eq_true. split; intros ?; by subst.
  - intros k1 N1. rewrite Filter_is_spec /Filter_spec.
    rewrite (list_filter_iff _ (λ e, e.1.1.1 = k1)); [done|].
    intros e. rewrite key_matches_empty key_matches_fixed //=.
    rewrite andb_true_r bool_decide_eq_true. split; intros ?; by subst.
  - intros k1 k2 N1 N2. rewrite Filter_is_spec /Filter_spec.
    rewrite (list_filter_iff _ (λ e, e.1.1.1 = k1 ∧ e.1.1.2 = k2)); [done|].
    intros e. rewrite !key_matches_fixed // andb_true_iff.
    rewrite !bool_decide_eq_true. split; intros [? ?]; by subst.
  - intros k1 k2. by rewrite Filter_is_spec.
  - apply NoDup_entries.
  - intros. apply elem_of_entries.
Qed.

(** ** Tokens sit under their own keys *)

Lemma keyed_init fs kf : keyed (init fs kf : T Token Bytes).
Proof. intros k1 k2 k3 st. by rewrite /leaf /= lookup_empty /= lookup_empty. Qed.

Lemma keyed_Add st t : keyed t → keyed (Add encode st t).2.
Proof.
  intros Hkd a b c x. rewrite Add_keyf.
  destruct (keyf t st) as [[k1 k2] k3] eqn:Hk.
  rewrite (Add_sts _ _ _ _ _ Hk).
  destruct (leaf (sts t) k1 k2 k3) eqn:Hl; [apply Hkd|].
  rewrite leaf_ins3. case_decide as E; [|apply Hkd].
  intros [= <-]. congruence.
Qed.

(** [Del] only takes leaves away. *)
Lemma Del_leaf_sub st t a b c x :
  leaf (sts (Del st t).2) a b c = Some x → leaf (sts t) a b c = Some x.
Proof.
  rewrite /Del. destruct (keyf t st) as [[k1 k2] k3].
  destruct (sts t !! k1) as [m1|] eqn:E1; [|done].
  destruct (m1 !! k2) as [m2|] eqn:E2; [|done].
  destruct (m2 !! k3) as [old|] eqn:E3; [|done].
  assert (∀ s' m1' m2',
    (s' = delete k1 (sts t) ∨ s' = <[k1 := m1']> (sts t)) →
    (m1' = delete k2 m1 ∨ m1' = <[k2 := m2']> m1) →
    m2' = delete k3 m2 →
    leaf s' a b c = Some x → leaf (sts t) a b c = Some x) as Hsub.
  { intros s' m1' m2' Hs' Hm1' ->. rewrite /leaf.
    destruct (decide (a = k1)) as [->|Na].
    - rewrite E1 /=. destruct Hs' as [->| ->];
        [by rewrite lookup_delete_eq /= lookup_empty|].
      rewrite lookup_insert_eq /=.
      destruct (decide (b = k2)) as [->|Nb].
      + rewrite E2 /=. destruct Hm1' as [->| ->];
          [by rewrite lookup_delete_eq /= lookup_empty|].
        rewrite lookup_insert_eq /=.
        destruct (decide (c = k3)) as [->|Nc];
          [by rewrite lookup_delete_eq|by rewrite lookup_delete_ne].
      + destruct Hm1' as [->| ->];
          [by rewrite lookup_delete_ne|by rewrite lookup_insert_ne].
    - destruct Hs' as [->| ->];
        [by rewrite lookup_delete_ne|by rewrite lookup_insert_ne]. }
  destruct (fsdir_Del [k1; _] _) as [[e|] fs1]; simpl.
  { apply (Hsub _ _ _ (or_intror eq_refl) (or_intror eq_refl) eq_refl). }
  rewrite insert_insert_eq.
  case_decide as Hz2; case_decide as Hz1;
    try destruct (fsdir_Del [k1] _) as [e2 fs2]; simpl;
    rewrite ?delete_insert_eq;
    first
      [ apply (Hsub _ _ _ (or_intror eq_refl) (or_intror eq_refl) eq_refl)
      | apply (Hsub _ _ _ (or_intror eq_refl) (or_introl eq_refl) eq_refl)
      | by apply (Hsub _ (delete k2 m1) (delete k3 m2)); [left|left|] ].
Qed.

Lemma keyed_Del st t : keyed t → keyed (Del st t).2.
Proof.
  intros Hkd a b c x Hl%Del_leaf_sub. rewrite Del_keyf. by apply Hkd.
Qed.

(** Every store reached from [init] by [Add] and [Del] is keyed. *)
Lemma keyed_run os t : keyed t → keyed (run encode os t).
Proof.
  revert t. induction os as [|[st|st] os IH]; intros t Hkd; [done|..];
    rewrite /run /=; apply IH; [by apply keyed_Add|by apply keyed_Del].
Qed.

(** C10: a token whose second key is the empty string is reached by
    [Filter] only through the wildcard on that level, and the wildcard
    does not tell it from the others.  After a successful [Add] of such a
    token [Filter k1 ""] returns it; every call of [Filter] that returns
    it was given [""] as second key; and such a call also returns every
    other token of the index whose first key matches, whatever its second
    key.  The same holds for the first key. *)
Theorem empty_key_reached_by_wildcard_only st t k1 k2 k3 :
  keyed t →
  keyf t st = (k1, k2, k3) →
  (Add encode st t).1 = None →
  let t' := (Add encode st t).2 in
  (k2 = "" →
     st ∈ Filter k1 "" t' ∧
     (∀ a b, st ∈ Filter a b t' → b = "") ∧
     (∀ a b a' b' c' st',
        st ∈ Filter a b t' →
        leaf (sts t') a' b' c' = Some st' → a = "" ∨ a = a' →
        st' ∈ Filter a b t')) ∧
  (k1 = "" →
     st ∈ Filter "" k2 t' ∧
     (∀ a b, st ∈ Filter a b t' → a = "") ∧
     (∀ a b a' b' c' st',
        st ∈ Filter a b t' →
        leaf (sts t') a' b' c' = Some st' → b = "" ∨ b = b' →
        st' ∈ Filter a b t')).
Proof.
  intros Hkd Hk Hok t'.
  assert (keyed t') as Hkd' by by apply keyed_Add.
  assert (keyf t' = keyf t) as Hkf by apply Add_keyf.
  assert (leaf (sts t') k1 k2 k3 = Some st) as Hin.
  { rewrite /t' (Add_sts _ _ _ _ _ Hk).
    destruct (leaf (sts t) k1 k2 k3) eqn:Hl;
      [by rewrite (Add_taken _ _ _ _ _ _ Hk Hl) in Hok|].
    by rewrite leaf_ins3 decide_True. }
  assert (∀ a b, st ∈ Filter a b t' →
                 (a = "" ∨ a = k1) ∧ (b = "" ∨ b = k2)) as Honly.
  { intros a b (a' & b' & c' & Hl & Ha & Hb)%elem_of_Filter.
    apply Hkd' in Hl. rewrite Hkf Hk in Hl. by simplify_eq. }
  split; intros ->.
  - split; [apply elem_of_Filter; exists k1, "", k3; auto|].
    split; [intros a b [_ [?|?]]%Honly; done|].
    intros a b a' b' c' st' [_ Hb]%Honly Hl Ha.
    apply elem_of_Filter. exists a', b', c'.
    split; [done|]. split; [done|]. left. by destruct Hb.
  - split; [apply elem_of_Filter; exists "", k2, k3; auto|].
    split; [intros a b [[?|?] _]%Honly; done|].
    intros a b a' b' c' st' [Ha _]%Honly Hl Hb.
    apply elem_of_Filter. exists a', b', c'.
    split; [done|]. split; [|done]. left. by destruct Ha.
Qed.

(** ** What a run of successful [Add]s leaves in memory and on disk *)

Lemma content_insert (F : gmap string (gmap string Bytes)) d f bts d' f' :
  default ∅ (<[d := <[f := bts]> (default ∅ (F !! d))]> F !! d') !! f' =
  if decide ((d', f') = (d, f)) then Some bts else default ∅ (F !! d') !! f'.
Proof.
  destruct (decide (d' = d)) as [->|Nd].
  - rewrite lookup_insert_eq /=. destruct (decide (f' = f)) as [->|Nf].
    + by rewrite lookup_insert_eq decide_True.
    + rewrite lookup_insert_ne // decide_False //. congruence.
  - rewrite lookup_insert_ne // decide_False //. congruence.
Qed.

Lemma file_of_disk_keys (kf : KeyFunc Token) x y :
  file_of kf x = file_of kf y ↔ disk_keys kf x = disk_keys kf y.
Proof.
  rewrite /file_of /disk_keys.
  destruct (kf x) as [[a b] c], (kf y) as [[a' b'] c']. simpl. split.
  - intros [= -> E]. f_equal. by eapply append_inj_l.
  - by intros [= -> ->].
Qed.

Lemma Add_ok st t k1 k2 k3 :
  keyf t st = (k1, k2, k3) →
  (Add encode st t).1 = None →
  leaf (sts t) k1 k2 k3 = None ∧
  sts (Add encode st t).2 = ins3 k1 k2 k3 st (sts t) ∧
  files (m (Add encode st t).2) =
    <[k1 := <[k3 +:+ ".json" := encode st]>
              (default ∅ (files (m t) !! k1))]> (files (m t)) ∧
  path (m (Add encode st t).2) = path (m t) ∧
  faults (m (Add encode st t).2) = tail (faults (m t)).
Proof.
  intros Hk. destruct (leaf (sts t) k1 k2 k3) as [old|] eqn:Hl.
  { by rewrite (Add_taken _ _ _ _ _ _ Hk Hl). }
  rewrite (Add_fresh _ _ _ _ _ Hk Hl) /= /fsdir_Set /fs_enter.
  by destruct (mjoin (head (faults (m t)))).
Qed.

Lemma run_snoc os o t :
  run encode (os ++ [o]) t = (step encode o (run encode os t)).2.
Proof. by rewrite /run foldl_snoc. Qed.

Lemma results_snoc os o t :
  results encode (os ++ [o]) t =
  results encode os t ++ [(step encode o (run encode os t)).1].
Proof.
  revert t. induction os as [|o' os IH]; intros t; [done|].
  by rewrite /= IH.
Qed.

Lemma adds_layout (ts : list Token) fs0 (kf : KeyFunc Token) :
  files fs0 = ∅ →
  NoDup (disk_keys kf <$> ts) →
  Forall (λ r, r = None) (results encode (OpAdd <$> ts) (init fs0 kf)) →
  let t := run encode (OpAdd <$> ts) (init fs0 kf) in
  keyf t = kf ∧ path (m t) = path fs0 ∧ no_empty (sts t) ∧
  map_Forall (λ _ (dir : gmap string Bytes), dir ≠ ∅) (files (m t)) ∧
  (∀ a b c x, leaf (sts t) a b c = Some x ↔ x ∈ ts ∧ kf x = (a, b, c)) ∧
  (∀ d f bts, content (m t) d f = Some bts ↔
              ∃ x, x ∈ ts ∧ file_of kf x = (d, f) ∧ bts = encode x).
Proof.
  intros Hf0. induction ts as [|st ts IH] using rev_ind; intros Hnd Hok.
  { simpl. split; [done|]. split; [done|]. split; [apply no_empty_empty|].
    split; [rewrite Hf0; apply map_Forall_empty|].
    split.
    - intros a b c x. rewrite /leaf /= lookup_empty /= lookup_empty.
      split; [done|]. by intros [?%elem_of_nil _].
    - intros d f bts. rewrite /content /= Hf0 lookup_empty /= lookup_empty.
      split; [done|]. by intros (x & ?%elem_of_nil & _). }
  rewrite fmap_app NoDup_app in Hnd. destruct Hnd as (Hnd & Hnew & _).
  rewrite fmap_app results_snoc Forall_app Forall_singleton /= in Hok.
  destruct Hok as [Hok Hst].
  destruct (IH Hnd Hok) as (Hkf & Hpath & Hne & Hdirs & Hleaf & Hcont).
  clear IH.
  rewrite fmap_app run_snoc /=.
  set (t := run encode (OpAdd <$> ts) (init fs0 kf)) in *.
  destruct (kf st) as [[k1 k2] k3] eqn:Hk.
  assert (keyf t st = (k1, k2, k3)) as Hk' by by rewrite Hkf.
  destruct (Add_ok st t k1 k2 k3 Hk' Hst) as (Hfree & Hsts & Hfiles & Hp & _).
  assert (∀ x, x ∈ ts → disk_keys kf x ≠ disk_keys kf st) as Hfresh.
  { intros x Hx E. apply (Hnew (disk_keys kf x)).
    - apply list_elem_of_fmap. by exists x.
    - rewrite E. apply list_elem_of_here. }
  split; [by rewrite Add_keyf|]. split; [by rewrite Hp|].
  split; [by apply Add_no_empty|].
  split; [rewrite Hfiles; apply map_Forall_insert_2;
          [apply insert_non_empty|done]|].
  split.
  - intros a b c x. rewrite Hsts leaf_ins3 elem_of_app list_elem_of_singleton.
    case_decide as E.
    + injection E as -> -> ->. split.
      * intros [= <-]. split; [by right|done].
      * intros [[Hx| ->] Hkx]; [|done].
        destruct (Hfresh x Hx). by rewrite /disk_keys Hkx Hk.
    + rewrite Hleaf. split.
      * intros [Hx Hkx]. split; [by left|done].
      * intros [[Hx| ->] Hkx]; [done|]. congruence.
  - intros d f bts. rewrite /content Hfiles content_insert.
    case_decide as E.
    + injection E as -> ->. split.
      * intros [= <-]. exists st. rewrite /file_of Hk.
        split; [apply elem_of_app; right; apply list_elem_of_here|done].
      * intros (x & [Hx| ->%list_elem_of_singleton]%elem_of_app & Hfx & ->);
          [|done].
        destruct (Hfresh x Hx). apply file_of_disk_keys.
        by rewrite Hfx /file_of Hk.
    + fold (content (m t) d f). rewrite Hcont. split.
      * intros (x & Hx & Hfx & ->). exists x.
        split; [apply elem_of_app; by left|done].
      * intros (x & [Hx| ->%list_elem_of_singleton]%elem_of_app & Hfx & ->).
        { by exists x. }
        destruct E. by rewrite -Hfx /file_of Hk.
Qed.

(** ** Two indexes with the same leaves *)

Lemma sts_ext s s' :
  no_empty s → no_empty s' →
  (∀ a b c, leaf s a b c = leaf s' a b c) →
  s = s'.
Proof.
  assert (∀ s s', no_empty s → (∀ a b c, leaf s a b c = leaf s' a b c) →
            ∀ a m1, s !! a = Some m1 →
            ∃ m1', s' !! a = Some m1' ∧
              ∀ b m2, m1 !! b = Some m2 → m1' !! b = Some m2) as Hle.
  { clear. intros s s' Hs Hl a m1 E1.
    destruct (Hs a m1 E1) as [Hn1 Hm1].
    apply map_choose in Hn1 as (b0 & m20 & E20).
    pose proof (Hm1 b0 m20 E20) as (c0 & x0 & E30)%map_choose.
    assert (leaf s' a b0 c0 = Some x0) as (m1' & _ & E1' & _)%leaf_Some.
    { rewrite -Hl. apply leaf_Some. by exists m1, m20. }
    exists m1'. split; [done|]. intros b m2 E2.
    pose proof (Hm1 b m2 E2) as (c1 & x1 & E31)%map_choose.
    assert (leaf s' a b c1 = Some x1) as (m1'' & m2' & E1'' & E2' & _)%leaf_Some.
    { rewrite -Hl. apply leaf_Some. by exists m1, m2. }
    assert (m1'' = m1') as -> by congruence. rewrite E2'. f_equal.
    apply map_eq. intros c. specialize (Hl a b c).
    by rewrite /leaf E1 E1' /= E2 E2' /= in Hl. }
  intros Hs Hs' Hl. apply map_eq. intros a.
  destruct (s !! a) as [m1|] eqn:E1, (s' !! a) as [m1'|] eqn:E1'; try done.
  - destruct (Hle s s' Hs Hl a m1 E1) as (n1 & En & H12).
    destruct (Hle s' s Hs' (λ a b c, eq_sym (Hl a b c)) a m1' E1')
      as (n1' & En' & H21).
    assert (n1 = m1') as -> by congruence.
    assert (n1' = m1) as -> by congruence.
    f_equal. apply map_eq. intros b.
    destruct (m1 !! b) as [m2|] eqn:E2.
    + by rewrite (H12 b m2 E2).
    + destruct (m1' !! b) as [m2'|] eqn:E2'; [|done].
      by rewrite (H21 b m2' E2') in E2.
  - by destruct (Hle s s' Hs Hl a m1 E1) as (n1 & En & _); simplify_eq.
  - by destruct (Hle s' s Hs' (λ a b c, eq_sym (Hl a b c)) a m1' E1')
      as (n1 & En & _); simplify_eq.
Qed.

(** ** The walk of [New] *)

Lemma elem_of_sort_names (l : list string) x : x ∈ sort_names l ↔ x ∈ l.
Proof. by rewrite /sort_names merge_sort_Permutation. Qed.

Lemma NoDup_sort_names (l : list string) : NoDup (sort_names l) ↔ NoDup l.
Proof. by rewrite /sort_names merge_sort_Permutation. Qed.

Lemma last_two_app (p : list string) a b : last_two (p ++ [a; b]) = Some [a; b].
Proof.
  rewrite /last_two length_app /= decide_True; [|lia].
  f_equal. replace (length p + 2 - 2) with (length p) by lia.
  by rewrite drop_app_length.
Qed.

Lemma NoDup_fmap_eq {A B : Type} (g : A → B) (l : list A) x y :
  NoDup (g <$> l) → x ∈ l → y ∈ l → g x = g y → x = y.
Proof.
  induction l as [|z l IH]; [by intros _ ?%elem_of_nil|].
  rewrite fmap_cons NoDup_cons.
  intros [Hz Hnd] [->|Hx]%elem_of_cons [->|Hy]%elem_of_cons E; try done.
  - destruct Hz. rewrite E. apply list_elem_of_fmap. by exists y.
  - destruct Hz. rewrite -E. apply list_elem_of_fmap. by exists x.
  - by apply IH.
Qed.

Lemma union_cons_swap (p : string * string) (Y X : gset (string * string)) :
  ({[p]} ∪ Y) ∪ X = Y ∪ ({[p]} ∪ X).
Proof. apply set_eq. intros x. rewrite !elem_of_union. tauto. Qed.

(** An entry whose name does not end in [.json] is passed over. *)
Lemma walkfn_skip (p : list string) name t :
  HasSuffix name ".json" = false →
  walkfn encode decode p name None t = Returned None t.
Proof. intros Hn. by rewrite /walkfn Hn. Qed.

Section Reload.

Variable kf : KeyFunc Token.
Variable ts : list Token.
Variable F : gmap string (gmap string Bytes).
Variable root : list string.

Hypothesis decode_encode : ∀ x, decode (encode x) = Some x.
Hypothesis ts_storable : Forall (storable kf) ts.
Hypothesis ts_distinct : NoDup (disk_keys kf <$> ts).
Hypothesis F_files :
  ∀ d f bts, default ∅ (F !! d) !! f = Some bts ↔
             ∃ x, x ∈ ts ∧ file_of kf x = (d, f) ∧ bts = encode x.
Hypothesis F_dirs : map_Forall (λ _ (dir : gmap string Bytes), dir ≠ ∅) F.
Hypothesis root_name : HasSuffix (default "" (last root)) ".json" = false.

Lemma reload_same_file x y :
  x ∈ ts → y ∈ ts → file_of kf x = file_of kf y → x = y.
Proof.
  intros Hx Hy E%file_of_disk_keys. by eapply NoDup_fmap_eq.
Qed.

(** Reading the file of a token that was not read yet adds the token and
    writes the file back as it was. *)
Lemma reload_file t X d f bts :
  reload_inv kf ts F root X t →
  default ∅ (F !! d) !! f = Some bts →
  (d, f) ∉ X →
  ∃ t', walkfn encode decode (root ++ [d; f]) f None t = Returned None t' ∧
        reload_inv kf ts F root ({[(d, f)]} ∪ X) t'.
Proof.
  intros (HF & Hfl & Hp & Hkf & Hne & Hleaf) Hc HX.
  pose proof Hc as (x & Hx & Hfx & ->)%F_files.
  destruct (kf x) as [[k1 k2] k3] eqn:Hk.
  rewrite /file_of Hk in Hfx. injection Hfx as <- <-.
  assert (∃ dir, F !! k1 = Some dir ∧ dir !! (k3 +:+ ".json") = Some (encode x))
    as (dir & Ed & Ef).
  { destruct (F !! k1) as [dir|]; [by exists dir|].
    by rewrite /= lookup_empty in Hc. }
  set (t1 := {| m := (fs_enter (CallGet [k1; k3 +:+ ".json"]) (m t)).2;
                sts := sts t; keyf := keyf t |}).
  assert (walkfn encode decode (root ++ [k1; k3 +:+ ".json"])
            (k3 +:+ ".json") None t =
          let '(err, t2) := Add encode x t1 in Returned err t2) as ->.
  { rewrite /t1 /walkfn HasSuffix_append /= last_two_app /fsdir_Get /fs_enter.
    by rewrite Hfl /= HF Hc decode_encode. }
  assert (leaf (sts t) k1 k2 k3 = None) as Hfree.
  { destruct (leaf (sts t) k1 k2 k3) as [y|] eqn:Hl; [|done].
    apply Hleaf in Hl as (Hy & Hky & HyX). destruct HX.
    by rewrite /file_of Hky in HyX. }
  rewrite (Add_fresh x t1 k1 k2 k3); [|by rewrite /= Hkf|done].
  rewrite /fsdir_Set /fs_enter /= Hfl /= HF Ed /=.
  rewrite (insert_id dir) // (insert_id F) //.
  eexists. split; [done|].
  split; [done|]. split; [done|]. split; [done|]. split; [done|].
  split; [by apply no_empty_ins3|]. simpl.
  intros a b c y. rewrite leaf_ins3 elem_of_union elem_of_singleton.
  case_decide as E.
  - injection E as -> -> ->. split.
    + intros [= <-]. split; [done|]. split; [done|]. left.
      by rewrite /file_of Hk.
    + intros (Hy & Hky & _). f_equal. apply reload_same_file; [done..|].
      by rewrite /file_of Hk Hky.
  - rewrite Hleaf. split; [intros (? & ? & ?); auto|].
    intros (Hy & Hky & [Hfy|HyX]); [|done].
    destruct E. rewrite -Hky -Hk. f_equal. apply reload_same_file; [done..|].
    by rewrite Hfy /file_of Hk.
Qed.

Lemma reload_names d (l : list string) t X :
  NoDup l →
  (∀ f, f ∈ l → is_Some (default ∅ (F !! d) !! f)) →
  (∀ f, f ∈ l → (d, f) ∉ X) →
  reload_inv kf ts F root X t →
  ∃ t', foldl (λ o f, andthen o
                 (walkfn encode decode (root ++ [d; f]) f None))
              (Returned None t) l = Returned None t' ∧
        reload_inv kf ts F root (list_to_set ((d,.) <$> l) ∪ X) t'.
Proof.
  revert t X. induction l as [|f l IH]; intros t X Hnd Hin HX Hinv.
  { exists t. split; [done|]. by rewrite /= left_id_L. }
  apply NoDup_cons in Hnd as [Hf Hnd].
  destruct (Hin f) as [bts Hc]; [apply list_elem_of_here|].
  destruct (reload_file t X d f bts Hinv Hc) as (t1 & Hstep & Hinv1).
  { apply HX, list_elem_of_here. }
  destruct (IH t1 ({[(d, f)]} ∪ X) Hnd) as (t' & Hfold & Hinv').
  { intros f' Hf'. apply Hin. by apply list_elem_of_further. }
  { intros f' Hf'. rewrite elem_of_union elem_of_singleton.
    intros [[= ->]|HfX]; [done|].
    by apply (HX f'); [apply list_elem_of_further|]. }
  { done. }
  exists t'. split; [by cbn [foldl andthen]; rewrite Hstep|].
  by rewrite fmap_cons /= union_cons_swap.
Qed.

Lemma elem_of_keys {A : Type} (mp : gmap string A) k :
  k ∈ (map_to_list mp).*1 ↔ is_Some (mp !! k).
Proof.
  rewrite list_elem_of_fmap. split.
  - intros ([k' v] & -> & Hin%elem_of_map_to_list). by exists v.
  - intros [v Hv]. exists (k, v). by rewrite elem_of_map_to_list.
Qed.

Lemma reload_dir_name d : is_Some (F !! d) → HasSuffix d ".json" = false.
Proof.
  intros [dir Ed].
  destruct (map_choose dir) as (f & bts & Ef); [by eapply F_dirs|].
  destruct (F_files d f bts) as [(x & Hx & Hfx & _) _];
    [by rewrite Ed|].
  destruct (proj1 (Forall_forall _ _) ts_storable x Hx) as (_ & Hsfx & _).
  rewrite /file_of in Hfx. destruct (kf x) as [[k1 k2] k3].
  by injection Hfx as <- _.
Qed.

Lemma reload_dir d t X :
  reload_inv kf ts F root X t →
  is_Some (F !! d) →
  (∀ f, (d, f) ∉ X) →
  ∃ t' X', walk_dir encode decode d t = Returned None t' ∧
           reload_inv kf ts F root X' t' ∧
           ∀ p, p ∈ X' ↔
                p ∈ X ∨ (p.1 = d ∧ is_Some (default ∅ (F !! d) !! p.2)).
Proof.
  intros Hinv Hd HX. pose proof Hinv as (HF & _ & Hp & _).
  rewrite /walk_dir HF Hp (walkfn_skip _ d); [|by apply reload_dir_name].
  set (names := sort_names (map_to_list (default ∅ (F !! d))).*1).
  destruct (reload_names d names t X) as (t' & Hfold & Hinv'); [| | |done|].
  { apply NoDup_sort_names, NoDup_fst_map_to_list. }
  { intros f. by rewrite elem_of_sort_names elem_of_keys. }
  { intros f _. apply HX. }
  exists t', (list_to_set ((d,.) <$> names) ∪ X). split; [done|].
  split; [done|]. intros [d' f'].
  rewrite elem_of_union elem_of_list_to_set list_elem_of_fmap /=. split.
  - intros [(f & [= -> ->] & Hf)|?]; [right|by left].
    split; [done|]. by rewrite -elem_of_keys -elem_of_sort_names.
  - intros [?|[-> Hf]]; [by right|left]. exists f'. split; [done|].
    by rewrite elem_of_sort_names elem_of_keys.
Qed.

Lemma reload_dirs (l : list string) t X :
  NoDup l →
  (∀ d, d ∈ l → is_Some (F !! d)) →
  (∀ d f, d ∈ l → (d, f) ∉ X) →
  reload_inv kf ts F root X t →
  ∃ t' X', foldl (λ o d, andthen o (walk_dir encode decode d))
                 (Returned None t) l = Returned None t' ∧
           reload_inv kf ts F root X' t' ∧
           ∀ p, p ∈ X' ↔
                p ∈ X ∨ (p.1 ∈ l ∧ is_Some (default ∅ (F !! p.1) !! p.2)).
Proof.
  revert t X. induction l as [|d l IH]; intros t X Hnd Hin HX Hinv.
  { exists t, X. split; [done|]. split; [done|]. intros p.
    split; [by left|]. by intros [?|[?%elem_of_nil _]]. }
  apply NoDup_cons in Hnd as [Hd Hnd].
  destruct (reload_dir d t X Hinv) as (t1 & X1 & Hstep & Hinv1 & HX1).
  { apply Hin, list_elem_of_here. }
  { intros f. apply HX, list_elem_of_here. }
  destruct (IH t1 X1 Hnd) as (t' & X' & Hfold & Hinv' & HX').
  { intros d' Hd'. by apply Hin, list_elem_of_further. }
  { intros d' f Hd'. rewrite HX1 /=. intros [HdX|[-> _]]; [|done].
    by apply (HX d' f); [apply list_elem_of_further|]. }
  { done. }
  exists t', X'. split; [by cbn [foldl andthen]; rewrite Hstep|].
  split; [done|].
  intros [d' f']. rewrite HX' HX1 /= elem_of_cons. split.
  - intros [[?|[-> ?]]|[? ?]]; auto.
  - intros [?|[[->|?] ?]]; auto.
Qed.

(** Over such a directory the walk goes through and leaves in the index
    the tokens of the files, each under its keys. *)
Lemma reload_walk t :
  reload_inv kf ts F root ∅ t →
  ∃ t', walk encode decode t = Returned None t' ∧
        no_empty (sts t') ∧
        ∀ a b c x, leaf (sts t') a b c = Some x ↔ x ∈ ts ∧ kf x = (a, b, c).
Proof.
  intros Hinv. pose proof Hinv as (HF & _ & Hp & _).
  rewrite /walk HF Hp (walkfn_skip root); [|done].
  destruct (reload_dirs (sort_names (map_to_list F).*1) t ∅)
    as (t' & X' & Hfold & Hinv' & HX'); [| | |done|].
  { apply NoDup_sort_names, NoDup_fst_map_to_list. }
  { intros d. by rewrite elem_of_sort_names elem_of_keys. }
  { intros d f _. apply not_elem_of_empty. }
  exists t'. split; [done|].
  destruct Hinv' as (_ & _ & _ & _ & Hne & Hleaf). split; [done|].
  intros a b c x. rewrite Hleaf. split; [by intros (? & ? & _)|].
  intros [Hx Hkx]. split; [done|]. split; [done|].
  apply HX'. right. rewrite /file_of Hkx /=.
  assert (is_Some (default ∅ (F !! a) !! (c +:+ ".json"))) as Hc.
  { exists (encode x). apply F_files. exists x. by rewrite /file_of Hkx. }
  split; [|done]. rewrite elem_of_sort_names elem_of_keys.
  destruct (F !! a); [done|]. by rewrite /= lookup_empty in Hc; destruct Hc.
Qed.

End Reload.

Lemma Filter_sts k1 k2 t t' : sts t' = sts t → Filter k1 k2 t' = Filter k1 k2 t.
Proof. intros E. by rewrite /Filter E. Qed.

(** The reload: tokens with distinct disk keys, written by successful
    [Add]s into an empty directory, are read back by [New] into the same
    index. *)
Lemma New_reloads (ts : list Token) fs0 (kf : KeyFunc Token) :
  (∀ x, decode (encode x) = Some x) →
  files fs0 = ∅ →
  HasSuffix (default "" (last (path fs0))) ".json" = false →
  Forall (storable kf) ts →
  NoDup (disk_keys kf <$> ts) →
  Forall (λ r, r = None) (results encode (OpAdd <$> ts) (init fs0 kf)) →
  let t := run encode (OpAdd <$> ts) (init fs0 kf) in
  ∃ t', New encode decode (reopen (m t)) kf = Returned None t' ∧
        sts t' = sts t ∧
        ∀ k1 k2, Filter k1 k2 t' ≡ₚ Filter k1 k2 t.
Proof.
  intros Hrt Hf0 Hroot Hstor Hnd Hok t.
  destruct (adds_layout ts fs0 kf Hf0 Hnd Hok)
    as (Hkf & Hpath & Hne & Hdirs & Hleaf & Hcont).
  fold t in Hkf, Hpath, Hne, Hdirs, Hleaf, Hcont.
  destruct (reload_walk kf ts (files (m t)) (path fs0) Hrt Hstor Hnd Hcont
              Hdirs Hroot
              {| m := {| path := path (m t); files := files (m t);
                         faults := []; calls := [] |};
                 sts := ∅; keyf := kf |})
    as (t' & Hwalk & Hne' & Hleaf').
  { split; [done|]. split; [done|]. split; [done|]. split; [done|].
    split; [apply no_empty_empty|]. intros a b c x.
    rewrite /leaf /= lookup_empty /= lookup_empty. split; [done|].
    by intros (_ & _ & ?%not_elem_of_empty). }
  exists t'. split; [done|].
  assert (sts t' = sts t) as Hsts.
  { apply sts_ext; [done..|]. intros a b c. apply option_eq. intros x.
    by rewrite Hleaf Hleaf'. }
  split; [done|]. intros k1 k2. by rewrite (Filter_sts _ _ t t').
Qed.

(** ** A walk that goes through took every step *)

Lemma grows_refl t : grows t t.
Proof. by intros a b c. Qed.

Lemma grows_trans t1 t2 t3 : grows t1 t2 → grows t2 t3 → grows t1 t3.
Proof. intros H12 H23 a b c H. by apply H23, H12. Qed.

Section Fold.

Context {A : Type}.
Variable g : A → T Token Bytes → outcome Token Bytes.
Variable P : T Token Bytes → Prop.
Hypothesis g_step :
  ∀ x t t', P t → g x t = Returned None t' → P t' ∧ grows t t'.

Lemma fold_stuck (o : outcome Token Bytes) (l : list A) :
  ¬ ok o → foldl (λ o x, andthen o (g x)) o l = o.
Proof.
  intros Hno. induction l as [|x l IH]; [done|].
  cbn [foldl]. destruct o as [[e|] t|]; [done| |done].
  destruct Hno. by exists t.
Qed.

Lemma fold_cons_ok x (l : list A) t0 t' :
  foldl (λ o x, andthen o (g x)) (Returned None t0) (x :: l) = Returned None t' →
  ∃ t1, g x t0 = Returned None t1 ∧
        foldl (λ o x, andthen o (g x)) (Returned None t1) l = Returned None t'.
Proof.
  cbn [foldl andthen]. intros Hf.
  destruct (g x t0) as [[e|] t1|] eqn:Hg; [| by exists t1 |].
  - rewrite fold_stuck in Hf; [done|by intros [? ?]].
  - rewrite fold_stuck in Hf; [done|by intros [? ?]].
Qed.

Lemma fold_ok_inv (l : list A) t0 t' :
  P t0 →
  foldl (λ o x, andthen o (g x)) (Returned None t0) l = Returned None t' →
  P t' ∧ grows t0 t'.
Proof.
  revert t0. induction l as [|x l IH]; intros t0 HP Hf.
  { injection Hf as <-. split; [done|apply grows_refl]. }
  apply fold_cons_ok in Hf as (t1 & Hg & Hf).
  destruct (g_step x t0 t1 HP Hg) as [HP1 Hgr].
  destruct (IH t1 HP1 Hf) as [HP' Hgr']. split; [done|].
  by eapply grows_trans.
Qed.

Lemma fold_ok_visit (l : list A) t0 t' x :
  P t0 →
  foldl (λ o x, andthen o (g x)) (Returned None t0) l = Returned None t' →
  x ∈ l →
  ∃ t1 t2, P t1 ∧ grows t0 t1 ∧ g x t1 = Returned None t2 ∧ grows t2 t'.
Proof.
  revert t0. induction l as [|y l IH]; intros t0 HP Hf Hx;
    [by apply elem_of_nil in Hx|].
  apply fold_cons_ok in Hf as (t1 & Hg & Hf).
  destruct (g_step y t0 t1 HP Hg) as [HP1 Hgr].
  apply elem_of_cons in Hx as [->|Hx].
  - exists t0, t1. split; [done|]. split; [apply grows_refl|].
    split; [done|]. by apply (fold_ok_inv l t1 t').
  - destruct (IH t1 HP1 Hf Hx) as (v1 & v2 & HPs & Hgs & Hstep & Hgs').
    exists v1, v2. split; [done|]. split; [by eapply grows_trans|done].
Qed.

Lemma fold_ok_two (l : list A) t0 t' x y :
  P t0 →
  foldl (λ o x, andthen o (g x)) (Returned None t0) l = Returned None t' →
  x ∈ l → y ∈ l → x ≠ y →
  ∃ t1 t2 t3 t4,
    P t1 ∧ P t3 ∧ grows t0 t1 ∧ grows t2 t3 ∧ grows t4 t' ∧
    ((g x t1 = Returned None t2 ∧ g y t3 = Returned None t4) ∨
     (g y t1 = Returned None t2 ∧ g x t3 = Returned None t4)).
Proof.
  revert t0. induction l as [|z l IH]; intros t0 HP Hf Hx Hy Hne;
    [by apply elem_of_nil in Hx|].
  apply fold_cons_ok in Hf as (t1 & Hg & Hf).
  destruct (g_step z t0 t1 HP Hg) as [HP1 Hgr].
  apply elem_of_cons in Hx as [->|Hx]; apply elem_of_cons in Hy as [->|Hy];
    [done| | |].
  - destruct (fold_ok_visit l t1 t' y HP1 Hf Hy)
      as (v1 & v2 & HPs & Hgs & Hstep & Hgs').
    exists t0, t1, v1, v2. split; [done|]. split; [done|].
    split; [apply grows_refl|]. split; [done|]. split; [done|]. by left.
  - destruct (fold_ok_visit l t1 t' x HP1 Hf Hx)
      as (v1 & v2 & HPs & Hgs & Hstep & Hgs').
    exists t0, t1, v1, v2. split; [done|]. split; [done|].
    split; [apply grows_refl|]. split; [done|]. split; [done|]. by right.
  - destruct (IH t1 HP1 Hf Hx Hy Hne)
      as (v1 & v2 & v3 & v4 & HP1' & HP3 & Hg1 & Hg23 & Hg4 & Hor).
    exists v1, v2, v3, v4. split; [done|]. split; [done|].
    split; [by eapply grows_trans|done].
Qed.

End Fold.

(** ** The walk over any directory *)

Lemma fsdir_Get_inr ps fs x fs1 :
  fsdir_Get decode ps fs = (inr x, fs1) →
  ∃ d f bts, ps = [d; f] ∧ content fs d f = Some bts ∧
             decode bts = Some x ∧ files fs1 = files fs.
Proof.
  rewrite /fsdir_Get /fs_enter /content.
  destruct (mjoin (head (faults fs))); [done|].
  destruct ps as [|d [|f [|? ?]]]; try done. simpl.
  destruct (default ∅ (files fs !! d) !! f) as [bts|] eqn:Ec; [|done].
  destruct (decode bts) as [y|] eqn:Ed; [|done].
  intros [= -> <-]. by exists d, f, bts.
Qed.

(** What a step of the walk that goes through did: it passed over the
    entry, or it read a record and added its token to a free leaf. *)
Lemma walkfn_ok (p : list string) name t t' :
  walkfn encode decode p name None t = Returned None t' →
  (HasSuffix name ".json" = false ∧ t' = t) ∨
  (HasSuffix name ".json" = true ∧
   ∃ d f bts x k1 k2 k3,
     last_two p = Some [d; f] ∧
     content (m t) d f = Some bts ∧ decode bts = Some x ∧
     keyf t x = (k1, k2, k3) ∧
     leaf (sts t) k1 k2 k3 = None ∧
     sts t' = ins3 k1 k2 k3 x (sts t) ∧
     files (m t') = <[k1 := <[k3 +:+ ".json" := encode x]>
                              (default ∅ (files (m t) !! k1))]> (files (m t)) ∧
     keyf t' = keyf t).
Proof.
  rewrite /walkfn. destruct (HasSuffix name ".json"); simpl; [|intros [= <-]; by left].
  destruct (last_two p) as [ps|]; [|done].
  destruct (fsdir_Get decode ps (m t)) as [[e|x] fs1] eqn:HG; [done|].
  apply fsdir_Get_inr in HG as (d & f & bts & -> & Hc & Hd & Hfs).
  set (t1 := {| m := fs1; sts := sts t; keyf := keyf t |}).
  destruct (Add encode x t1) as [err t2] eqn:HA. intros [= -> ->]. right.
  split; [done|]. destruct (keyf t x) as [[k1 k2] k3] eqn:Hk.
  destruct (Add_ok x t1 k1 k2 k3) as (Hfree & Hsts & Hfiles & _);
    [done|by rewrite HA|].
  rewrite HA /= Hfs in Hsts, Hfiles.
  exists d, f, bts, x, k1, k2, k3.
  repeat (split; [done|]). by rewrite -(Add_keyf x t1) HA.
Qed.

Section Replay.

Variable kf : KeyFunc Token.
Variable F0 : gmap string (gmap string Bytes).
Hypothesis decode_encode : ∀ x, decode (encode x) = Some x.

Lemma replay_step (p : list string) name t t' :
  replay_inv encode kf F0 t →
  walkfn encode decode p name None t = Returned None t' →
  replay_inv encode kf F0 t' ∧ grows t t'.
Proof.
  intros (Hkf & Hmono & Hprov).
  intros [[_ ->]|(_ & d & f & bts & x & k1 & k2 & k3 & _ & Hc & Hd & Hk &
                  Hfree & Hsts & Hfiles & Hkf')]%walkfn_ok.
  { split; [done|apply grows_refl]. }
  assert (grows t t') as Hgr.
  { intros a b c. rewrite Hsts leaf_ins3. by case_decide. }
  split; [|done]. split; [congruence|]. split.
  - intros d' f' Hin%Hmono. rewrite /content Hfiles content_insert.
    by case_decide.
  - intros d' f' bts'. rewrite /content Hfiles content_insert.
    case_decide as E.
    + intros [= <-]. right. exists x. split; [done|].
      rewrite -Hkf Hk /= Hsts leaf_ins3 decide_True //.
    + intros [?|(y & -> & Hy)]%Hprov; [by left|right].
      exists y. split; [done|]. by apply Hgr.
Qed.

(** Reading a file that was there from the start, when it goes through,
    means the file held the record of a token whose leaf was free, and
    the leaf is taken afterwards. *)
Lemma replay_file_ok (p : list string) d f bts t t' :
  replay_inv encode kf F0 t →
  default ∅ (F0 !! d) !! f = Some bts →
  HasSuffix f ".json" = true →
  walkfn encode decode (p ++ [d; f]) f None t = Returned None t' →
  ∃ x, decode bts = Some x ∧
       leaf (sts t) (kf x).1.1 (kf x).1.2 (kf x).2 = None ∧
       is_Some (leaf (sts t') (kf x).1.1 (kf x).1.2 (kf x).2).
Proof.
  intros (Hkf & Hmono & Hprov) Hc0 Hsfx.
  intros [[Hn _]|(_ & d' & f' & bts' & x & k1 & k2 & k3 & Hl & Hc & Hd & Hk &
                  Hfree & Hsts & _)]%walkfn_ok; [congruence|].
  rewrite last_two_app in Hl. injection Hl as <- <-.
  rewrite Hkf in Hk.
  destruct (Hprov d f bts' Hc) as [Horig|(y & -> & Hy)].
  - assert (bts' = bts) as -> by congruence.
    exists x. rewrite Hk /=. split; [done|]. split; [done|].
    by rewrite Hsts leaf_ins3 decide_True.
  - rewrite decode_encode in Hd. injection Hd as ->.
    rewrite Hk /= Hfree in Hy. by destruct Hy.
Qed.

Lemma replay_conflict (p p' : list string) d1 f1 d2 f2 bs1 bs2 x1 x2
    v1 v2 v3 v4 :
  replay_inv encode kf F0 v1 → replay_inv encode kf F0 v3 → grows v2 v3 →
  default ∅ (F0 !! d1) !! f1 = Some bs1 →
  default ∅ (F0 !! d2) !! f2 = Some bs2 →
  HasSuffix f1 ".json" = true → HasSuffix f2 ".json" = true →
  decode bs1 = Some x1 → decode bs2 = Some x2 → kf x1 = kf x2 →
  walkfn encode decode (p ++ [d1; f1]) f1 None v1 = Returned None v2 →
  walkfn encode decode (p' ++ [d2; f2]) f2 None v3 = Returned None v4 →
  False.
Proof.
  intros H1 H3 Hgr Hc1 Hc2 Hs1 Hs2 Hd1 Hd2 Hk Hw1 Hw2.
  destruct (replay_file_ok p d1 f1 bs1 v1 v2 H1 Hc1 Hs1 Hw1)
    as (y1 & Hy1 & _ & Hocc).
  destruct (replay_file_ok p' d2 f2 bs2 v3 v4 H3 Hc2 Hs2 Hw2)
    as (y2 & Hy2 & Hfree & _).
  assert (y1 = x1) as -> by congruence. assert (y2 = x2) as -> by congruence.
  apply Hgr in Hocc. rewrite Hk Hfree in Hocc. by destruct Hocc.
Qed.

Lemma walk_dir_ok d t t' :
  walk_dir encode decode d t = Returned None t' →
  ∃ t1, walkfn encode decode (path (m t) ++ [d]) d None t = Returned None t1 ∧
        foldl (λ o f, andthen o
                 (walkfn encode decode (path (m t) ++ [d; f]) f None))
              (Returned None t1)
              (sort_names (map_to_list (default ∅ (files (m t) !! d))).*1)
          = Returned None t'.
Proof.
  rewrite /walk_dir. intros Hf.
  destruct (walkfn encode decode (path (m t) ++ [d]) d None t)
    as [[e|] t1|] eqn:Hw; [|by exists t1|].
  - rewrite fold_stuck in Hf; [done|by intros [? ?]].
  - rewrite fold_stuck in Hf; [done|by intros [? ?]].
Qed.

Lemma replay_file_steps (p : list string) d (f : string) t t' :
  replay_inv encode kf F0 t →
  walkfn encode decode (p ++ [d; f]) f None t = Returned None t' →
  replay_inv encode kf F0 t' ∧ grows t t'.
Proof. apply replay_step. Qed.

Lemma replay_dir_step d t t' :
  replay_inv encode kf F0 t →
  walk_dir encode decode d t = Returned None t' →
  replay_inv encode kf F0 t' ∧ grows t t'.
Proof.
  intros Hinv (t1 & Hw & Hf)%walk_dir_ok.
  destruct (replay_step _ _ _ _ Hinv Hw) as [Hinv1 Hgr1].
  destruct (fold_ok_inv _ _ (replay_file_steps (path (m t)) d) _ _ _ Hinv1 Hf)
    as [Hinv' Hgr']. split; [done|]. by eapply grows_trans.
Qed.

Lemma content_dir (F : gmap string (gmap string Bytes)) d f :
  is_Some (default ∅ (F !! d) !! f) → is_Some (F !! d).
Proof.
  destruct (F !! d); [done|]. rewrite /= lookup_empty. by intros [? ?].
Qed.

Lemma replay_dir_names d f t :
  replay_inv encode kf F0 t →
  is_Some (default ∅ (F0 !! d) !! f) →
  f ∈ sort_names (map_to_list (default ∅ (files (m t) !! d))).*1.
Proof.
  intros (_ & Hmono & _) Hin. rewrite elem_of_sort_names elem_of_keys.
  by apply Hmono.
Qed.

(** A walk of a directory that goes through read every file that was in it
    from the start. *)
Lemma replay_dir_visit d f t t' :
  replay_inv encode kf F0 t →
  walk_dir encode decode d t = Returned None t' →
  is_Some (default ∅ (F0 !! d) !! f) →
  ∃ v1 v2,
    replay_inv encode kf F0 v1 ∧ grows t v1 ∧ grows v2 t' ∧
    walkfn encode decode (path (m t) ++ [d; f]) f None v1 = Returned None v2.
Proof.
  intros Hinv (t1 & Hw & Hf)%walk_dir_ok Hin.
  destruct (replay_step _ _ _ _ Hinv Hw) as [Hinv1 Hgr1].
  destruct (fold_ok_visit _ _ (replay_file_steps (path (m t)) d) _ _ _ f
              Hinv1 Hf) as (v1 & v2 & Hs1 & Hg1 & Hstep & Hg2).
  { by apply replay_dir_names. }
  exists v1, v2. split; [done|]. split; [by eapply grows_trans|done].
Qed.

Lemma replay_dir_no_clash d f1 f2 bs1 bs2 x1 x2 t t' :
  replay_inv encode kf F0 t →
  walk_dir encode decode d t = Returned None t' →
  default ∅ (F0 !! d) !! f1 = Some bs1 →
  default ∅ (F0 !! d) !! f2 = Some bs2 →
  HasSuffix f1 ".json" = true → HasSuffix f2 ".json" = true →
  decode bs1 = Some x1 → decode bs2 = Some x2 → kf x1 = kf x2 →
  f1 ≠ f2 → False.
Proof.
  intros Hinv (t1 & Hw & Hf)%walk_dir_ok Hc1 Hc2 Hs1 Hs2 Hd1 Hd2 Hk Hne.
  destruct (replay_step _ _ _ _ Hinv Hw) as [Hinv1 Hgr1].
  destruct (fold_ok_two _ _ (replay_file_steps (path (m t)) d) _ _ _ f1 f2
              Hinv1 Hf)
    as (v1 & v2 & v3 & v4 & H1 & H3 & _ & Hgr & _ & [[Hw1 Hw2]|[Hw2 Hw1]]);
    [by apply replay_dir_names..|done| |].
  - exact (replay_conflict (path (m t)) (path (m t)) d f1 d f2 bs1 bs2 x1 x2
             v1 v2 v3 v4 H1 H3 Hgr Hc1 Hc2 Hs1 Hs2 Hd1 Hd2 Hk Hw1 Hw2).
  - exact (replay_conflict (path (m t)) (path (m t)) d f2 d f1 bs2 bs1 x2 x1
             v1 v2 v3 v4 H1 H3 Hgr Hc2 Hc1 Hs2 Hs1 Hd2 Hd1 (eq_sym Hk)
             Hw2 Hw1).
Qed.

Lemma walk_ok t t' :
  walk encode decode t = Returned None t' →
  ∃ t1, walkfn encode decode (path (m t)) (default "" (last (path (m t))))
          None t = Returned None t1 ∧
        foldl (λ o d, andthen o (walk_dir encode decode d))
              (Returned None t1)
              (sort_names (map_to_list (files (m t))).*1)
          = Returned None t'.
Proof.
  rewrite /walk. intros Hf.
  destruct (walkfn encode decode (path (m t)) _ None t)
    as [[e|] t1|] eqn:Hw; [|by exists t1|].
  - rewrite fold_stuck in Hf; [done|by intros [? ?]].
  - rewrite fold_stuck in Hf; [done|by intros [? ?]].
Qed.

Lemma replay_walk_dirs d f t :
  replay_inv encode kf F0 t →
  is_Some (default ∅ (F0 !! d) !! f) →
  d ∈ sort_names (map_to_list (files (m t))).*1.
Proof.
  intros (_ & Hmono & _) Hin. rewrite elem_of_sort_names elem_of_keys.
  by eapply content_dir, Hmono.
Qed.

(** A walk that goes through read every file that was there from the
    start. *)
Lemma replay_walk_visit d f t t' :
  replay_inv encode kf F0 t →
  walk encode decode t = Returned None t' →
  is_Some (default ∅ (F0 !! d) !! f) →
  ∃ p v1 v2,
    replay_inv encode kf F0 v1 ∧
    walkfn encode decode (p ++ [d; f]) f None v1 = Returned None v2.
Proof.
  intros Hinv (t1 & Hw & Hf)%walk_ok Hin.
  destruct (replay_step _ _ _ _ Hinv Hw) as [Hinv1 Hgr1].
  destruct (fold_ok_visit _ _ replay_dir_step _ _ _ d Hinv1 Hf)
    as (u1 & u2 & Hu1 & _ & Hdir & _); [by eapply replay_walk_dirs|].
  destruct (replay_dir_visit d f u1 u2 Hu1 Hdir Hin)
    as (v1 & v2 & Hs1 & _ & _ & Hstep).
  by exists (path (m u1)), v1, v2.
Qed.

Lemma replay_walk_no_clash d1 f1 d2 f2 bs1 bs2 x1 x2 t t' :
  replay_inv encode kf F0 t →
  walk encode decode t = Returned None t' →
  default ∅ (F0 !! d1) !! f1 = Some bs1 →
  default ∅ (F0 !! d2) !! f2 = Some bs2 →
  HasSuffix f1 ".json" = true → HasSuffix f2 ".json" = true →
  decode bs1 = Some x1 → decode bs2 = Some x2 → kf x1 = kf x2 →
  (d1, f1) ≠ (d2, f2) → False.
Proof.
  intros Hinv (t1 & Hw & Hf)%walk_ok Hc1 Hc2 Hs1 Hs2 Hd1 Hd2 Hk Hne.
  destruct (replay_step _ _ _ _ Hinv Hw) as [Hinv1 Hgr1].
  destruct (decide (d1 = d2)) as [->|Hd].
  - destruct (fold_ok_visit _ _ replay_dir_step _ _ _ d2 Hinv1 Hf)
      as (u1 & u2 & Hu1 & _ & Hdir & _); [by eapply replay_walk_dirs|].
    eapply (replay_dir_no_clash d2 f1 f2); [done..|]. congruence.
  - destruct (fold_ok_two _ _ replay_dir_step _ _ _ d1 d2 Hinv1 Hf)
      as (u1 & u2 & u3 & u4 & Hu1 & Hu3 & _ & Hgr & _ & [[Hx Hy]|[Hy Hx]]);
      [by eapply replay_walk_dirs..|done| |].
    + destruct (replay_dir_visit d1 f1 u1 u2 Hu1 Hx)
        as (v1 & v2 & Hv1 & _ & Hg2 & Hstep1); [done|].
      destruct (replay_dir_visit d2 f2 u3 u4 Hu3 Hy)
        as (v3 & v4 & Hv3 & Hg3 & _ & Hstep2); [done|].
      assert (grows v2 v3) as Hg23
        by (eapply grows_trans; [done|]; by eapply grows_trans).
      exact (replay_conflict (path (m u1)) (path (m u3)) d1 f1 d2 f2 bs1 bs2
               x1 x2 v1 v2 v3 v4 Hv1 Hv3 Hg23 Hc1 Hc2 Hs1 Hs2 Hd1 Hd2 Hk
               Hstep1 Hstep2).
    + destruct (replay_dir_visit d2 f2 u1 u2 Hu1 Hy)
        as (v1 & v2 & Hv1 & _ & Hg2 & Hstep1); [done|].
      destruct (replay_dir_visit d1 f1 u3 u4 Hu3 Hx)
        as (v3 & v4 & Hv3 & Hg3 & _ & Hstep2); [done|].
      assert (grows v2 v3) as Hg23
        by (eapply grows_trans; [done|]; by eapply grows_trans).
      exact (replay_conflict (path (m u1)) (path (m u3)) d2 f2 d1 f1 bs2 bs1
               x2 x1 v1 v2 v3 v4 Hv1 Hv3 Hg23 Hc2 Hc1 Hs2 Hs1 Hd2 Hd1
               (eq_sym Hk) Hstep1 Hstep2).
Qed.

End Replay.

(** ** [New] *)

Lemma New_ok_walk disk (kf : KeyFunc Token) t' :
  New encode decode disk kf = Returned None t' →
  walk encode decode
    {| m := {| path := path disk; files := files disk;
               faults := tail (faults disk); calls := calls disk |};
       sts := ∅; keyf := kf |} = Returned None t'.
Proof. rewrite /New. by destruct (mjoin (head (faults disk))). Qed.

Lemma replay_inv_init disk (kf : KeyFunc Token) :
  replay_inv encode kf (files disk)
    {| m := {| path := path disk; files := files disk;
               faults := tail (faults disk); calls := calls disk |};
       sts := ∅; keyf := kf |}.
Proof. split; [done|]. split; [done|]. intros d f bts Hc. by left. Qed.

(** C9, as the code has it.  Let the serialisation of tokens round-trip.
    (1) Tokens with pairwise distinct [(k1, k3)], whose [k1] names a
    directory and does not end in [.json] and whose [k3.json] names a
    file, added with success one after the other to a store over an empty
    directory whose own name does not end in [.json]: [New] over the
    directory they leave returns without error a store with the same
    index, hence the same [Filter] results for all [k1], [k2].
    (2) Over any directory in which a file named [*.json] does not
    deserialise, [New] does not return without error.
    (3) Over any directory in which two files named [*.json] hold tokens
    with the same three keys, [New] does not return without error. *)
Theorem New_reload (kf : KeyFunc Token) :
  (∀ x, decode (encode x) = Some x) →
  (∀ (ts : list Token) fs0,
     files fs0 = ∅ →
     HasSuffix (default "" (last (path fs0))) ".json" = false →
     Forall (storable kf) ts →
     NoDup (disk_keys kf <$> ts) →
     Forall (λ r, r = None) (results encode (OpAdd <$> ts) (init fs0 kf)) →
     let t := run encode (OpAdd <$> ts) (init fs0 kf) in
     ∃ t', New encode decode (reopen (m t)) kf = Returned None t' ∧
           sts t' = sts t ∧
           ∀ k1 k2, Filter k1 k2 t' ≡ₚ Filter k1 k2 t) ∧
  (∀ disk d f bts,
     content disk d f = Some bts →
     HasSuffix f ".json" = true →
     decode bts = None →
     ¬ ok (New encode decode disk kf)) ∧
  (∀ disk d1 f1 d2 f2 bs1 bs2 x1 x2,
     (d1, f1) ≠ (d2, f2) →
     content disk d1 f1 = Some bs1 → content disk d2 f2 = Some bs2 →
     HasSuffix f1 ".json" = true → HasSuffix f2 ".json" = true →
     decode bs1 = Some x1 → decode bs2 = Some x2 →
     kf x1 = kf x2 →
     ¬ ok (New encode decode disk kf)).
Proof.
  intros Hrt. split; [|split].
  - intros ts fs0 Hf0 Hroot Hstor Hnd Hok. by apply New_reloads.
  - intros disk d f bts Hc Hsfx Hbad [t' Hnew%New_ok_walk].
    destruct (replay_walk_visit kf (files disk) d f _ t'
                (replay_inv_init disk kf) Hnew)
      as (p & v1 & v2 & Hv1 & Hstep); [by rewrite -/(content disk d f) Hc|].
    destruct (replay_file_ok kf (files disk) Hrt p d f bts v1 v2 Hv1 Hc Hsfx
                Hstep) as (x & Hx & _).
    congruence.
  - intros disk d1 f1 d2 f2 bs1 bs2 x1 x2 Hne Hc1 Hc2 Hs1 Hs2 Hd1 Hd2 Hk
      [t' Hnew%New_ok_walk].
    exact (replay_walk_no_clash kf (files disk) Hrt d1 f1 d2 f2 bs1 bs2 x1 x2
             _ t' (replay_inv_init disk kf) Hnew Hc1 Hc2 Hs1 Hs2 Hd1 Hd2 Hk
             Hne).
Qed.

End Proofs.

(** * The instance at work *)

Example Filter_all_of_three :
  Filter "" "" Example.t3 ≡ₚ [Example.a3; Example.a2; Example.a1].
Proof.
  replace (Filter "" "" Example.t3)
    with (reverse [Example.a3; Example.a2; Example.a1]) by by vm_compute.
  apply reverse_Permutation.
Qed.

Example Filter_relay_of_three :
  Filter "" "r1" Example.t3 = [Example.a1; Example.a3] ∧
  Filter "c1" "" Example.t3 = [Example.a1; Example.a2] ∧
  Filter "c1" "r2" Example.t3 = [Example.a2] ∧
  Filter "c2" "r2" Example.t3 = [].
Proof. by vm_compute. Qed.

Example SettlingAt_of_three :
  SettlingAt Example.settling "r1" 15 Example.t3 = {["r1" := 1%Z]} ∧
  SettlingAt Example.settling "r1" 25 Example.t3 = ∅ ∧
  SettlingAt Example.settling "" 15 Example.t3 = {["" := 2%Z]}.
Proof. by vm_compute. Qed.

Example Del_last_of_group :
  Del Example.a1 Example.t1 =
    (None,
     {| m := {| path := Example.root; files := ∅; faults := [];
                calls := [CallSet ["c1"; "s1.json"];
                          CallDel ["c1"; "s1.json"]; CallDel ["c1"]] |};
        sts := ∅; keyf := Example.key3 |}).
Proof. reflexivity. Qed.

Example New_of_three :
  ∃ t', New Example.enc Example.dec (reopen (m Example.t3)) Example.key3
          = Returned None t' ∧
        sts t' = sts Example.t3 ∧
        calls (m t') =
          [CallGet ["c1"; "s1.json"]; CallSet ["c1"; "s1.json"];
           CallGet ["c1"; "s2.json"]; CallSet ["c1"; "s2.json"];
           CallGet ["c2"; "s3.json"]; CallSet ["c2"; "s3.json"]].
Proof. eexists. split; [by vm_compute|]. by vm_compute. Qed.

Example New_of_two_copies :
  ∃ t', New Example.enc Example.dec Example.disk_dup Example.key3
          = Returned (Some DuplicateSTError) t' ∧
        Filter "" "" t' = [Example.a1] ∧
        calls (m t') =
          [CallGet ["c1"; "copy.json"]; CallSet ["c1"; "s1.json"];
           CallGet ["c1"; "s1.json"]].
Proof. eexists. split; [by vm_compute|]. by vm_compute. Qed.

(** * The theorems at the instance *)

Lemma Add_write_failure_keeps_token_witness :
  ∃ t', Add Example.enc Example.a1 (init Example.disk_fail1 Example.key3)
          = (Some (IOError "EIO"), t') ∧
        leaf (sts t') "c1" "r1" "s1" = Some Example.a1 ∧
        Example.a1 ∈ Filter "c1" "r1" t' ∧
        calls (m t') = [CallSet ["c1"; "s1.json"]].
Proof.
  apply (Add_write_failure_keeps_token Example.enc Example.a1
           (init Example.disk_fail1 Example.key3) "c1" "r1" "s1"
           (IOError "EIO")); reflexivity.
Defined.

Lemma Add_duplicate_no_change_witness :
  let t := (Add Example.enc Example.a1 Example.t0).2 in
  Add Example.enc Example.a1 t = (Some DuplicateSTError, t) ∧
  sts (Add Example.enc Example.a1 t).2 = sts t ∧
  m (Add Example.enc Example.a1 t).2 = m t ∧
  leaf (sts (Add Example.enc Example.a1 t).2) "c1" "r1" "s1"
    = Some Example.a1.
Proof.
  apply (Add_duplicate_no_change Example.enc Example.a1
           (Add Example.enc Example.a1 Example.t0).2
           "c1" "r1" "s1" Example.a1); reflexivity.
Defined.

Lemma Del_file_failure_no_pruning_witness :
  ∃ t', Del Example.a1 Example.t1_fail2 = (Some (IOError "EIO"), t') ∧
        sts t' = <["c1" := <["r1" := delete "s1" Example.leaves_a1]>
                              Example.relays_a1]> (sts Example.t1_fail2) ∧
        sts t' !! "c1" =
          Some (<["r1" := delete "s1" Example.leaves_a1]> Example.relays_a1) ∧
        default ∅ (sts t' !! "c1") !! "r1" =
          Some (delete "s1" Example.leaves_a1) ∧
        leaf (sts t') "c1" "r1" "s1" = None ∧
        calls (m t') =
          calls (m Example.t1_fail2) ++ [CallDel ["c1"; "s1" +:+ ".json"]].
Proof.
  apply (Del_file_failure_no_pruning Example.a1 Example.t1_fail2
           "c1" "r1" "s1" Example.relays_a1 Example.leaves_a1 Example.a1
           (IOError "EIO")); reflexivity.
Defined.

Lemma Del_success_prunes_witness :
  Del Example.a1 Example.t1 =
    ((fsdir_Del ["c1"]
        (fsdir_Del ["c1"; "s1.json"] (m Example.t1)).2).1,
     {| m := (fsdir_Del ["c1"]
                (fsdir_Del ["c1"; "s1.json"] (m Example.t1)).2).2;
        sts := delete "c1" (sts Example.t1);
        keyf := keyf Example.t1 |}) ∧
  calls (m (Del Example.a1 Example.t1).2) =
    calls (m Example.t1) ++ [CallDel ["c1"; "s1.json"]; CallDel ["c1"]] ∧
  ((Del Example.a1 Example.t1).1 = None →
   files (m (Del Example.a1 Example.t1).2) !! "c1" = None).
Proof.
  apply (Del_success_prunes Example.a1 Example.t1
           "c1" "r1" "s1" Example.relays_a1 Example.leaves_a1 Example.a1);
    reflexivity.
Defined.

Lemma Del_absent_noop_witness :
  Del Example.a1 Example.t0 = (None, Example.t0) ∧
  let t2 := (Del Example.a1 (Add Example.enc Example.a1 Example.t0).2).2 in
  Del Example.a1 t2 = (None, t2).
Proof.
  apply (Del_absent_noop Example.enc Example.a1 Example.t0 "c1" "r1" "s1");
    [reflexivity|left; reflexivity].
Defined.

Lemma no_empty_run_witness :
  no_empty (sts (run Example.enc
                   [OpAdd Example.a1; OpAdd Example.a2; OpDel Example.a1;
                    OpAdd Example.a1; OpDel Example.a2]
                   (init Example.disk_fail1 Example.key3))).
Proof.
  apply (no_empty_run Example.enc
           [OpAdd Example.a1; OpAdd Example.a2; OpDel Example.a1;
            OpAdd Example.a1; OpDel Example.a2]
           (init Example.disk_fail1 Example.key3));
    [apply no_empty_empty|reflexivity].
Defined.

(** C3 as stated fails: [Add a1] goes through, the file deletion of
    [Del a1] fails, and the index is left with an empty map under
    [("c1", "r1")]. *)
Lemma no_empty_counterexample :
  results Example.enc [OpAdd Example.a1; OpDel Example.a1]
    (init Example.disk_fail2 Example.key3) = [None; Some (IOError "EIO")] ∧
  sts (run Example.enc [OpAdd Example.a1; OpDel Example.a1]
         (init Example.disk_fail2 Example.key3)) = {["c1" := {["r1" := ∅]}]} ∧
  ¬ no_empty (sts (run Example.enc [OpAdd Example.a1; OpDel Example.a1]
                     (init Example.disk_fail2 Example.key3))).
Proof.
  split; [reflexivity|]. split; [reflexivity|].
  intros H.
  destruct (H "c1" {["r1" := ∅]} eq_refl) as [_ H2].
  by destruct (H2 "r1" ∅ eq_refl).
Qed.

Lemma Filter_wildcards_witness :
  Filter "" "r1" Example.t3 ≡ₚ
    (filter (λ e : string * string * string * Example.tok, e.1.1.2 = "r1")
            (entries (sts Example.t3))).*2 ∧
  Filter "c1" "" Example.t3 ≡ₚ
    (filter (λ e : string * string * string * Example.tok, e.1.1.1 = "c1")
            (entries (sts Example.t3))).*2 ∧
  Filter "c1" "r2" Example.t3 ≡ₚ
    (filter (λ e : string * string * string * Example.tok,
               e.1.1.1 = "c1" ∧ e.1.1.2 = "r2")
            (entries (sts Example.t3))).*2.
Proof.
  destruct (Filter_wildcards Example.t3) as (_ & H2 & H1 & H12 & _).
  split; [by apply H2|]. split; [by apply H1|by apply H12].
Defined.

Lemma empty_key_reached_by_wildcard_only_witness :
  Example.a5 ∈ Filter "c1" "" Example.t3_5 ∧
  (∀ a b, Example.a5 ∈ Filter a b Example.t3_5 → b = "") ∧
  (∀ a b a' b' c' st',
     Example.a5 ∈ Filter a b Example.t3_5 →
     leaf (sts Example.t3_5) a' b' c' = Some st' → a = "" ∨ a = a' →
     st' ∈ Filter a b Example.t3_5).
Proof.
  apply (empty_key_reached_by_wildcard_only Example.enc Example.a5
           Example.t3 "c1" "" "s5");
    [apply keyed_run, keyed_init|reflexivity|reflexivity|reflexivity].
Defined.

Lemma New_reload_witness :
  (∃ t', New Example.enc Example.dec (reopen (m Example.t3)) Example.key3
           = Returned None t' ∧
         sts t' = sts Example.t3 ∧
         ∀ k1 k2, Filter k1 k2 t' ≡ₚ Filter k1 k2 Example.t3) ∧
  ¬ ok (New Example.enc Example.dec Example.disk_bad Example.key3) ∧
  ¬ ok (New Example.enc Example.dec Example.disk_dup Example.key3).
Proof.
  destruct (New_reload Example.enc Example.dec Example.key3
              (λ x, eq_refl)) as (Hload & Hbad & Hdup).
  split; [|split].
  - apply (Hload [Example.a1; Example.a2; Example.a3] Example.disk0);
      [reflexivity|reflexivity| | |].
    + repeat constructor.
    + apply (bool_decide_unpack _). vm_compute. exact I.
    + repeat constructor.
  - apply (Hbad Example.disk_bad "c1" "s1.json" None); reflexivity.
  - apply (Hdup Example.disk_dup "c1" "s1.json" "c1" "copy.json"
             (Some Example.a1) (Some Example.a1) Example.a1 Example.a1);
      [discriminate|reflexivity..].
Defined.

(** C9 as stated fails.  [a1] and [a4] have distinct key triples and both
    [Add]s succeed, but both are written to [c1/s1.json]: [New] over the
    directory finds [a4] only, and [Filter "c1" "r1"] differs.  And a token
    whose first key ends in [.json] is not read back at all: [New] takes
    its directory for a record and fails. *)
Lemma New_reload_counterexample :
  NoDup (Example.key3 <$> [Example.a1; Example.a4]) ∧
  results Example.enc [OpAdd Example.a1; OpAdd Example.a4] Example.t0
    = [None; None] ∧
  (∃ t', New Example.enc Example.dec (reopen (m Example.t14)) Example.key3
           = Returned None t' ∧
         Filter "c1" "r1" Example.t14 = [Example.a1] ∧
         Filter "c1" "r1" t' = [] ∧
         ¬ (Filter "c1" "r1" t' ≡ₚ Filter "c1" "r1" Example.t14)) ∧
  results Example.enc [OpAdd Example.a6] Example.t0 = [None] ∧
  (∃ t', New Example.enc Example.dec (reopen (m Example.t6)) Example.key3
           = Returned (Some (IOError "no such file")) t').
Proof.
  split; [apply (bool_decide_unpack _); vm_compute; exact I|].
  split; [reflexivity|]. split; [|split; [reflexivity|]].
  - eexists. split; [vm_compute; reflexivity|].
    split; [reflexivity|]. split; [reflexivity|].
    intros Hp. apply Permutation_length in Hp. vm_compute in Hp. discriminate.
  - eexists. vm_compute. reflexivity.
Qed.

(** * Further properties of the store *)

Section Further.

Context {Token Bytes : Type}.
Variable encode : Token -> Bytes.
Variable decode : Bytes -> option Token.
Variable IsSettlingAt : Token -> Z -> bool.

Implicit Types (t : T Token Bytes) (st : Token) (fs : fsdir Bytes).
Implicit Types (s : gmap string (gmap string (gmap string Token))).
Implicit Types (k a b c d f : string).

(** ** What [Add] and [Del] do to the index *)

Lemma Add_leaf st t k1 k2 k3 a b c :
  keyf t st = (k1, k2, k3) →
  leaf (sts (Add encode st t).2) a b c =
    match leaf (sts t) a b c with
    | Some x => Some x
    | None => if decide ((a, b, c) = (k1, k2, k3)) then Some st else None
    end.
Proof.
  intros Hk. rewrite (Add_sts encode _ _ _ _ _ Hk).
  destruct (leaf (sts t) k1 k2 k3) as [old|] eqn:Hl.
  - destruct (leaf (sts t) a b c) eqn:Ha; [done|].
    case_decide as E; [|done]. injection E as -> -> ->. congruence.
  - rewrite leaf_ins3. case_decide as E.
    + injection E as -> -> ->. by rewrite Hl.
    + by destruct (leaf (sts t) a b c).
Qed.

Lemma Del_leaf_other st t k1 k2 k3 a b c :
  keyf t st = (k1, k2, k3) →
  (a, b, c) ≠ (k1, k2, k3) →
  leaf (sts (Del st t).2) a b c = leaf (sts t) a b c.
Proof.
  intros Hk Hne.
  destruct (leaf (sts t) k1 k2 k3) as [old|] eqn:Hl;
    [|by rewrite (Del_absent _ _ _ _ _ Hk Hl)].
  apply leaf_Some in Hl as (m1 & m2 & E1 & E2 & E3).
  assert (leaf (<[k1 := <[k2 := delete k3 m2]> m1]> (sts t)) a b c
          = leaf (sts t) a b c) as Hkeep.
  { rewrite /leaf. destruct (decide (a = k1)) as [->|Na];
      [|by rewrite lookup_insert_ne].
    rewrite lookup_insert_eq E1 /=. destruct (decide (b = k2)) as [->|Nb];
      [|by rewrite lookup_insert_ne].
    rewrite lookup_insert_eq E2 /= lookup_delete_ne //. congruence. }
  destruct (fsdir_Del [k1; k3 +:+ ".json"] (m t)) as [[e|] fs1] eqn:Hd.
  { by rewrite /Del Hk E1 E2 E3 Hd. }
  rewrite (Del_found st t k1 k2 k3 m1 m2 old) //; [|by rewrite Hd].
  rewrite -Hkeep. simpl.
  destruct (decide (size (delete k3 m2) = 0)) as [Hz2|Hz2];
    [rewrite map_size_empty_iff in Hz2|].
  - rewrite delete_insert_eq.
    assert (∀ m1' : gmap string (gmap string Token),
              default ∅ (<[k2 := delete k3 m2]> m1' !! b) !! c
                   = default ∅ (delete k2 m1' !! b) !! c) as Hk2.
    { intros m1'. destruct (decide (b = k2)) as [->|Nb].
      - by rewrite lookup_insert_eq lookup_delete_eq /= Hz2.
      - by rewrite lookup_insert_ne // lookup_delete_ne. }
    destruct (decide (size (delete k2 m1) = 0)) as [Hz1|Hz1];
      [rewrite map_size_empty_iff in Hz1|]; simpl; rewrite /leaf.
    + rewrite !delete_insert_eq. destruct (decide (a = k1)) as [->|Na];
        [|by rewrite lookup_delete_ne // lookup_insert_ne].
      by rewrite lookup_delete_eq lookup_insert_eq /= Hk2 Hz1.
    + rewrite insert_insert_eq. destruct (decide (a = k1)) as [->|Na];
        [|by rewrite !lookup_insert_ne].
      by rewrite !lookup_insert_eq /= Hk2.
  - destruct (decide (size (<[k2:=delete k3 m2]> m1) = 0)) as [Hz1|Hz1];
      [rewrite map_size_empty_iff in Hz1|].
    { apply (f_equal (.!! k2)) in Hz1.
      by rewrite lookup_insert_eq lookup_empty in Hz1. }
    by rewrite /= insert_insert_eq.
Qed.

(** X1: when the leaf is free and the write goes through, [Add] returns no
    error; the leaf holds the token, [Filter] on its first two keys returns
    it, the file [(k1, k3.json)] holds its serialisation and every other
    file is as it was. *)
Theorem Add_success st t k1 k2 k3 :
  keyf t st = (k1, k2, k3) →
  leaf (sts t) k1 k2 k3 = None →
  (fsdir_Set encode st [k1; k3 +:+ ".json"] (m t)).1 = None →
  ∃ t', Add encode st t = (None, t') ∧
        leaf (sts t') k1 k2 k3 = Some st ∧
        st ∈ Filter k1 k2 t' ∧
        content (m t') k1 (k3 +:+ ".json") = Some (encode st) ∧
        (∀ d f, (d, f) ≠ (k1, k3 +:+ ".json") →
                content (m t') d f = content (m t) d f) ∧
        calls (m t') = calls (m t) ++ [CallSet [k1; k3 +:+ ".json"]].
Proof.
  intros Hk Hfree Hw. exists (Add encode st t).2.
  destruct (Add_ok encode st t k1 k2 k3 Hk) as (_ & Hsts & Hfiles & _).
  { by rewrite (Add_fresh encode _ _ _ _ _ Hk Hfree). }
  assert (leaf (sts (Add encode st t).2) k1 k2 k3 = Some st) as Hl
    by by rewrite Hsts leaf_ins3 decide_True.
  split; [by rewrite (Add_fresh encode _ _ _ _ _ Hk Hfree) Hw|].
  split; [done|]. split; [|split; [|split]].
  - apply elem_of_Filter. exists k1, k2, k3. auto.
  - by rewrite /content Hfiles content_insert decide_True.
  - intros d f Hne. by rewrite /content Hfiles content_insert decide_False.
  - rewrite (Add_fresh encode _ _ _ _ _ Hk Hfree) /=. apply fsdir_Set_calls.
Qed.

(** X2: whatever [Add] returns, it changes the index at no leaf but the one
    of the token's keys, and at that one only when it was free: a token that
    was in the index is still there, under the same keys, and is never
    replaced. *)
Theorem Add_touches_one_free_leaf st t :
  (∀ a b c x, leaf (sts t) a b c = Some x →
              leaf (sts (Add encode st t).2) a b c = Some x) ∧
  (∀ a b c, keyf t st ≠ (a, b, c) →
            leaf (sts (Add encode st t).2) a b c = leaf (sts t) a b c) ∧
  (∀ a b c, keyf t st = (a, b, c) → leaf (sts t) a b c = None →
            leaf (sts (Add encode st t).2) a b c = Some st) ∧
  keyf (Add encode st t).2 = keyf t.
Proof.
  destruct (keyf t st) as [[k1 k2] k3] eqn:Hk.
  split; [|split; [|split]].
  - intros a b c x Hx. by rewrite (Add_leaf st t k1 k2 k3) // Hx.
  - intros a b c Hne. rewrite (Add_leaf st t k1 k2 k3) //.
    destruct (leaf (sts t) a b c); [done|].
    by rewrite decide_False; [|congruence].
  - intros a b c [= <- <- <-] Hfree.
    by rewrite (Add_leaf st t k1 k2 k3) // Hfree decide_True.
  - apply Add_keyf.
Qed.

(** X3: whatever [Del] returns, the index afterwards is the index before
    without the leaf of the token's keys: that leaf is free and every other
    leaf holds what it held. *)
Theorem Del_removes_one_leaf st t a b c :
  leaf (sts (Del st t).2) a b c =
    if decide (keyf t st = (a, b, c)) then None else leaf (sts t) a b c.
Proof.
  destruct (keyf t st) as [[k1 k2] k3] eqn:Hk. case_decide as E.
  - injection E as <- <- <-. by apply Del_leaf_free.
  - apply (Del_leaf_other st t k1 k2 k3); [done|congruence].
Qed.

Lemma fsdir_Set_error st ps fs e :
  (fsdir_Set encode st ps fs).1 = Some e → ∃ msg, e = IOError msg.
Proof.
  rewrite /fsdir_Set /fs_enter.
  destruct (mjoin (head (faults fs))) as [msg|]; simpl.
  - intros [= <-]. by exists msg.
  - destruct ps as [|? [|? [|? ?]]]; simpl; intros [= <-]; by eexists.
Qed.

Lemma fsdir_Del_error ps fs e :
  (fsdir_Del ps fs).1 = Some e → ∃ msg, e = IOError msg.
Proof.
  rewrite /fsdir_Del /fs_enter.
  destruct (mjoin (head (faults fs))) as [msg|]; simpl.
  - intros [= <-]. by exists msg.
  - destruct ps as [|d [|? [|? ?]]]; simpl; try (intros [= <-]; by eexists);
      try done.
    by destruct (files fs !! d).
Qed.

(** X4: [Add] returns [DuplicateSTError] exactly when the leaf of the
    token's keys is taken; any other error it returns is the error of its
    write.  [Del] never returns [DuplicateSTError], and returns no error at
    all when the leaf is free. *)
Theorem error_results st t :
  ((Add encode st t).1 = Some DuplicateSTError ↔
   is_Some (leaf (sts t) (keyf t st).1.1 (keyf t st).1.2 (keyf t st).2)) ∧
  (∀ e, (Add encode st t).1 = Some e → e ≠ DuplicateSTError →
        (fsdir_Set encode st
           [(keyf t st).1.1; (keyf t st).2 +:+ ".json"] (m t)).1 = Some e) ∧
  (Del st t).1 ≠ Some DuplicateSTError ∧
  (leaf (sts t) (keyf t st).1.1 (keyf t st).1.2 (keyf t st).2 = None →
   (Del st t).1 = None).
Proof.
  destruct (keyf t st) as [[k1 k2] k3] eqn:Hk. simpl.
  split; [|split; [|split]].
  - destruct (leaf (sts t) k1 k2 k3) as [old|] eqn:Hl.
    + rewrite (Add_taken encode _ _ _ _ _ _ Hk Hl). by split.
    + rewrite (Add_fresh encode _ _ _ _ _ Hk Hl) /=. split.
      * by intros (msg & ?)%fsdir_Set_error.
      * by intros [? ?].
  - intros e. destruct (leaf (sts t) k1 k2 k3) as [old|] eqn:Hl.
    + rewrite (Add_taken encode _ _ _ _ _ _ Hk Hl). by intros [= <-].
    + by rewrite (Add_fresh encode _ _ _ _ _ Hk Hl).
  - destruct (leaf (sts t) k1 k2 k3) as [old|] eqn:Hl;
      [|by rewrite (Del_absent _ _ _ _ _ Hk Hl)].
    apply leaf_Some in Hl as (m1 & m2 & E1 & E2 & E3).
    destruct (fsdir_Del [k1; k3 +:+ ".json"] (m t)) as [[e|] fs1] eqn:Hd.
    + rewrite /Del Hk E1 E2 E3 Hd /=.
      destruct (fsdir_Del_error [k1; k3 +:+ ".json"] (m t) e) as [msg ->];
        [by rewrite Hd|done].
    + rewrite (Del_found st t k1 k2 k3 m1 m2 old) //; [|by rewrite Hd].
      simpl. case_decide; [|done]. simpl.
      intros (msg & ?)%fsdir_Del_error. done.
  - intros Hl. by rewrite (Del_absent _ _ _ _ _ Hk Hl).
Qed.

(** X5: [Add] then [Del] of a token gives the index back.  When the index
    has no empty inner mapping, the leaf of the token is free and the
    deletion of the token's file does not fail, the index after [Add] and
    [Del] is the index before, whatever the write of [Add] and the deletion
    of the group returned. *)
Theorem Add_Del_restores_index st t :
  no_empty (sts t) →
  leaf (sts t) (keyf t st).1.1 (keyf t st).1.2 (keyf t st).2 = None →
  file_del_fails st (Add encode st t).2 = false →
  sts (Del st (Add encode st t).2).2 = sts t ∧
  ∀ k1 k2, Filter k1 k2 (Del st (Add encode st t).2).2 = Filter k1 k2 t.
Proof.
  intros Hne Hfree Hdel.
  destruct (keyf t st) as [[k1 k2] k3] eqn:Hk. simpl in Hfree.
  assert (keyf (Add encode st t).2 st = (k1, k2, k3)) as Hk1
    by by rewrite Add_keyf.
  assert (sts (Del st (Add encode st t).2).2 = sts t) as Hsts.
  { apply sts_ext; [|done|].
    - apply Del_no_empty; [|done]. by apply Add_no_empty.
    - intros a b c. destruct (decide ((a, b, c) = (k1, k2, k3))) as [E|E].
      + injection E as -> -> ->. rewrite Hfree. by apply Del_leaf_free.
      + rewrite (Del_leaf_other _ _ k1 k2 k3) //.
        rewrite (Add_leaf st t k1 k2 k3) //.
        destruct (leaf (sts t) a b c); [done|]. by rewrite decide_False. }
  split; [done|]. intros q1 q2. by apply Filter_sts.
Qed.

(** ** [Filter] as the index changes *)

Lemma NoDup_entries_all s : NoDup (entries s).
Proof. eapply NoDup_fmap_1, NoDup_entries. Qed.

(** An index with one leaf more has that entry more. *)
Lemma entries_one_more s s' a b c x :
  leaf s' a b c = None →
  (∀ a' b' c', leaf s a' b' c' =
     if decide ((a', b', c') = (a, b, c)) then Some x else leaf s' a' b' c') →
  entries s ≡ₚ (a, b, c, x) :: entries s'.
Proof.
  intros Hfree Hl. apply NoDup_Permutation.
  - apply NoDup_entries_all.
  - apply NoDup_cons. split; [|apply NoDup_entries_all].
    rewrite elem_of_entries. congruence.
  - intros [[[a' b'] c'] y]. rewrite elem_of_cons !elem_of_entries Hl.
    case_decide as E.
    + injection E as -> -> ->. split.
      * intros [= <-]. by left.
      * intros [[= <-]|Hy]; [done|congruence].
    + split; [by right|]. intros [[= -> -> -> _]|Hy]; done.
Qed.

Lemma Filter_perm_entries q1 q2 t
    (l : list (string * string * string * Token)) :
  entries (sts t) ≡ₚ l →
  Filter q1 q2 t ≡ₚ
  (filter (λ e : string * string * string * Token,
             key_matches q1 e.1.1.1 && key_matches q2 e.1.1.2 = true) l).*2.
Proof. intros Hl. by rewrite Filter_is_spec /Filter_spec Hl. Qed.

Lemma entries_Add st t k1 k2 k3 :
  keyf t st = (k1, k2, k3) →
  leaf (sts t) k1 k2 k3 = None →
  entries (sts (Add encode st t).2) ≡ₚ (k1, k2, k3, st) :: entries (sts t).
Proof.
  intros Hk Hfree. apply entries_one_more; [done|]. intros a b c.
  rewrite (Add_leaf st t k1 k2 k3) //. case_decide as E.
  - injection E as -> -> ->. by rewrite Hfree.
  - by destruct (leaf (sts t) a b c).
Qed.

Lemma entries_Del st t k1 k2 k3 old :
  keyf t st = (k1, k2, k3) →
  leaf (sts t) k1 k2 k3 = Some old →
  entries (sts t) ≡ₚ (k1, k2, k3, old) :: entries (sts (Del st t).2).
Proof.
  intros Hk Hold. apply entries_one_more; [by apply Del_leaf_free|].
  intros a b c. case_decide as E.
  - by injection E as -> -> ->.
  - by rewrite (Del_leaf_other st t k1 k2 k3).
Qed.


(** X7: [Add] into a free leaf, whatever its write returns, adds exactly
    that token to the results of [Filter]: the result of a query it matches
    is the former result with the token added once, and the result of any
    other query is, up to order, what it was. *)
Theorem Filter_after_Add st t k1 k2 k3 q1 q2 :
  keyf t st = (k1, k2, k3) →
  leaf (sts t) k1 k2 k3 = None →
  Filter q1 q2 (Add encode st t).2 ≡ₚ
    (if key_matches q1 k1 && key_matches q2 k2 then [st] else [])
    ++ Filter q1 q2 t.
Proof.
  intros Hk Hfree.
  rewrite (Filter_perm_entries q1 q2 _ _ (entries_Add st t k1 k2 k3 Hk Hfree)).
  rewrite (Filter_is_spec q1 q2 t) /Filter_spec.
  destruct (key_matches q1 k1 && key_matches q2 k2) eqn:E.
  - by rewrite filter_cons_True.
  - rewrite filter_cons_False //=. by rewrite E.
Qed.

(** X8: [Del] of a token whose leaf is taken, whatever its calls to the
    file store return, takes exactly the token of that leaf out of the
    results of [Filter]. *)
Theorem Filter_after_Del st t k1 k2 k3 old q1 q2 :
  keyf t st = (k1, k2, k3) →
  leaf (sts t) k1 k2 k3 = Some old →
  Filter q1 q2 t ≡ₚ
    (if key_matches q1 k1 && key_matches q2 k2 then [old] else [])
    ++ Filter q1 q2 (Del st t).2.
Proof.
  intros Hk Hold.
  rewrite (Filter_perm_entries q1 q2 _ _ (entries_Del st t k1 k2 k3 old Hk Hold)).
  rewrite (Filter_is_spec q1 q2 (Del st t).2) /Filter_spec.
  destruct (key_matches q1 k1 && key_matches q2 k2) eqn:E.
  - by rewrite filter_cons_True.
  - rewrite filter_cons_False //=. by rewrite E.
Qed.

Lemma SettlingAt_counted rpk utime t :
  SettlingAt IsSettlingAt rpk utime t =
  counted rpk (length (filter (λ st, IsSettlingAt st utime = true)
                              (Filter "" rpk t))).
Proof.
  rewrite /SettlingAt. by rewrite (SettlingAt_fold IsSettlingAt rpk utime _ 0).
Qed.

(** X9: [Add] into a free leaf raises the count of [SettlingAt rpk] by one
    when the token is settling and its second key is [rpk] (or [rpk] is the
    empty string, which counts every token), and leaves the result as it
    was otherwise. *)
Theorem SettlingAt_after_Add st t k1 k2 k3 rpk utime :
  keyf t st = (k1, k2, k3) →
  leaf (sts t) k1 k2 k3 = None →
  SettlingAt IsSettlingAt rpk utime (Add encode st t).2 =
    if key_matches rpk k2 && IsSettlingAt st utime
    then {[rpk := Z.of_nat
             (S (length (filter (λ st, IsSettlingAt st utime = true)
                                (Filter "" rpk t))))]}
    else SettlingAt IsSettlingAt rpk utime t.
Proof.
  intros Hk Hfree. rewrite !SettlingAt_counted.
  rewrite (Filter_perm_entries "" rpk _ _ (entries_Add st t k1 k2 k3 Hk Hfree)).
  rewrite (Filter_is_spec "" rpk t) /Filter_spec.
  destruct (key_matches rpk k2) eqn:Ek; simpl;
    [|by rewrite filter_cons_False //= Ek].
  rewrite (filter_cons_True _ (k1, k2, k3, st)) /=; [|by rewrite Ek].
  destruct (IsSettlingAt st utime) eqn:E.
  - by rewrite filter_cons_True.
  - rewrite filter_cons_False //. by rewrite E.
Qed.

(** X10: in a store where every token sits under its own keys, as in
    every store made by [Add] and [Del], [Filter] returns no token twice,
    and every token it returns is in the index under its own keys, which
    match the query. *)
Theorem Filter_in_keyed_store t q1 q2 :
  keyed t →
  NoDup (Filter q1 q2 t) ∧
  ∀ st, st ∈ Filter q1 q2 t →
        leaf (sts t) (keyf t st).1.1 (keyf t st).1.2 (keyf t st).2 = Some st ∧
        (q1 = "" ∨ q1 = (keyf t st).1.1) ∧ (q2 = "" ∨ q2 = (keyf t st).1.2).
Proof.
  intros Hkd. split.
  - rewrite Filter_is_spec /Filter_spec.
    apply NoDup_fmap_2_strong; [|apply NoDup_filter, NoDup_entries_all].
    intros [[[a b] c] x] [[[a' b'] c'] x']
      [_ Hx%elem_of_entries]%list_elem_of_filter
      [_ Hx'%elem_of_entries]%list_elem_of_filter. simpl. intros <-.
    apply Hkd in Hx, Hx'. congruence.
  - intros st (a & b & c & Hl & H1 & H2)%elem_of_Filter.
    pose proof (Hkd _ _ _ _ Hl) as Hk. by rewrite Hk.
Qed.

(** X11: [Filter] returns the empty list exactly when no token of the index
    matches the query; so for a first key that is not in the index, and for
    a second key that is not under the first. *)
Theorem Filter_nothing t q1 q2 :
  (Filter q1 q2 t = [] ↔
   ∀ a b c, (q1 = "" ∨ q1 = a) → (q2 = "" ∨ q2 = b) →
            leaf (sts t) a b c = None) ∧
  (q1 ≠ "" → sts t !! q1 = None → Filter q1 q2 t = []) ∧
  (q1 ≠ "" → q2 ≠ "" → default ∅ (sts t !! q1) !! q2 = None →
   Filter q1 q2 t = []).
Proof.
  assert (Filter q1 q2 t = [] ↔
          ∀ a b c, (q1 = "" ∨ q1 = a) → (q2 = "" ∨ q2 = b) →
                   leaf (sts t) a b c = None) as Hiff.
  { split.
    - intros He a b c H1 H2.
      destruct (leaf (sts t) a b c) as [x|] eqn:Hl; [|done].
      assert (x ∈ Filter q1 q2 t) as Hin
        by (apply elem_of_Filter; by exists a, b, c).
      rewrite He in Hin. by apply elem_of_nil in Hin.
    - intros Hno. destruct (Filter q1 q2 t) as [|x l] eqn:E; [done|].
      assert (x ∈ Filter q1 q2 t) as Hin by (rewrite E; apply list_elem_of_here).
      apply elem_of_Filter in Hin as (a & b & c & Hl & H1 & H2).
      by rewrite (Hno a b c H1 H2) in Hl. }
  split; [done|]. split.
  - intros N1 Hk. apply Hiff. intros a b c [?|<-] _; [done|].
    by rewrite /leaf Hk /= lookup_empty.
  - intros N1 N2 Hk. apply Hiff. intros a b c [?|<-] [?|<-]; try done.
    by rewrite /leaf Hk /= lookup_empty.
Qed.

(** ** What a successful [New] has loaded *)

Lemma last_two_last (p : list string) d f :
  last_two p = Some [d; f] → last p = Some f.
Proof.
  rewrite /last_two. case_decide as Hn; [|done]. intros [= Hd].
  rewrite -(take_drop (length p - 2) p) Hd.
  by rewrite (last_app_cons _ [f] d).
Qed.

Section Loaded.

Variable kf : KeyFunc Token.
Variable F0 : gmap string (gmap string Bytes).
Hypothesis decode_encode : ∀ x, decode (encode x) = Some x.

Lemma loaded_step (p : list string) name t t' :
  last p = Some name ∨ HasSuffix name ".json" = false →
  loaded_inv encode decode kf F0 t →
  walkfn encode decode p name None t = Returned None t' →
  loaded_inv encode decode kf F0 t' ∧ grows t t'.
Proof.
  intros Hname (Hinv & Hne & Hsrc) Hw.
  destruct (replay_step encode decode kf F0 p name t t' Hinv Hw)
    as [Hinv' Hgr].
  split; [|done]. split; [done|].
  apply walkfn_ok in Hw
    as [[_ ->]|(Hsfx & d & f & bts & x & k1 & k2 & k3 & Hl & Hc & Hd & Hk &
                Hfree & Hsts & _)]; [done|].
  destruct Hinv as (Hkf & _ & Hprov). rewrite Hkf in Hk.
  rewrite Hsts. split; [by apply no_empty_ins3|].
  intros a b c y. rewrite leaf_ins3. case_decide as E; [|apply Hsrc].
  injection E as -> -> ->. intros [= <-]. split; [done|].
  destruct (Hprov d f bts Hc) as [Horig|(z & -> & Hz)].
  - exists d, f, bts. split; [done|]. split; [|done].
    destruct Hname as [Hlast|Hno]; [|congruence].
    apply last_two_last in Hl. congruence.
  - rewrite decode_encode in Hd. injection Hd as ->.
    rewrite Hk /= Hfree in Hz. by destruct Hz.
Qed.

Lemma loaded_file_step (p : list string) d (f : string) t t' :
  loaded_inv encode decode kf F0 t →
  walkfn encode decode (p ++ [d; f]) f None t = Returned None t' →
  loaded_inv encode decode kf F0 t' ∧ grows t t'.
Proof. apply loaded_step. left. by rewrite (last_app_cons _ [f] d). Qed.

Lemma loaded_dir_step d t t' :
  loaded_inv encode decode kf F0 t →
  walk_dir encode decode d t = Returned None t' →
  loaded_inv encode decode kf F0 t' ∧ grows t t'.
Proof.
  intros Hinv (t1 & Hw & Hf)%walk_dir_ok.
  destruct (loaded_step _ _ _ _ (or_introl (last_snoc d _)) Hinv Hw)
    as [Hinv1 Hgr1].
  destruct (fold_ok_inv _ _ (loaded_file_step (path (m t)) d) _ _ _ Hinv1 Hf)
    as [Hinv' Hgr']. split; [done|]. by eapply grows_trans.
Qed.

Lemma loaded_walk t t' :
  loaded_inv encode decode kf F0 t →
  walk encode decode t = Returned None t' →
  loaded_inv encode decode kf F0 t'.
Proof.
  intros Hinv (t1 & Hw & Hf)%walk_ok.
  destruct (loaded_step (path (m t)) (default "" (last (path (m t)))) t t1)
    as [Hinv1 _]; [|done..|].
  { destruct (last (path (m t))) as [n|]; [by left|by right]. }
  by apply (fold_ok_inv _ _ loaded_dir_step _ _ _ Hinv1 Hf).
Qed.

(** A walk that goes through read every file that was there from the
    start, and what the file gave is still in the index at the end. *)
Lemma replay_walk_loaded d f bts t t' :
  replay_inv encode kf F0 t →
  walk encode decode t = Returned None t' →
  default ∅ (F0 !! d) !! f = Some bts →
  HasSuffix f ".json" = true →
  ∃ x, decode bts = Some x ∧
       is_Some (leaf (sts t') (kf x).1.1 (kf x).1.2 (kf x).2).
Proof.
  intros Hinv (t1 & Hw & Hf)%walk_ok Hc Hsfx.
  destruct (replay_step encode decode kf F0 _ _ _ _ Hinv Hw) as [Hinv1 _].
  destruct (fold_ok_visit _ _ (replay_dir_step encode decode kf F0) _ _ _ d
              Hinv1 Hf)
    as (u1 & u2 & Hu1 & _ & Hdir & Hg2).
  { apply (replay_walk_dirs encode kf F0 d f); [done|by rewrite Hc]. }
  destruct (replay_dir_visit encode decode kf F0 d f u1 u2 Hu1 Hdir)
    as (v1 & v2 & Hv1 & _ & Hg & Hstep); [by rewrite Hc|].
  destruct (replay_file_ok encode decode kf F0 decode_encode _ d f bts v1 v2
              Hv1 Hc Hsfx Hstep) as (x & Hx & _ & Hocc).
  exists x. split; [done|]. by apply Hg2, Hg.
Qed.

End Loaded.

(** X12: what [New] has done when it returns no error, over any directory,
    given a serialisation that round-trips.  Every file named [*.json] of
    the directory deserialises, and the index holds its token under the
    token's keys; every token of the index sits under its own keys and is
    what some [*.json] file of the directory deserialises to; the index has
    no empty inner mapping; and no file of the directory is gone. *)
Theorem New_ok_loaded disk (kf : KeyFunc Token) t' :
  (∀ x, decode (encode x) = Some x) →
  New encode decode disk kf = Returned None t' →
  (∀ d f bts, content disk d f = Some bts → HasSuffix f ".json" = true →
     ∃ x, decode bts = Some x ∧
          leaf (sts t') (kf x).1.1 (kf x).1.2 (kf x).2 = Some x) ∧
  (∀ a b c x, leaf (sts t') a b c = Some x →
     kf x = (a, b, c) ∧
     ∃ d f bts, content disk d f = Some bts ∧
                HasSuffix f ".json" = true ∧ decode bts = Some x) ∧
  no_empty (sts t') ∧
  keyf t' = kf ∧
  (∀ d f, is_Some (content disk d f) → is_Some (content (m t') d f)).
Proof.
  intros Hrt Hnew%New_ok_walk.
  pose proof (replay_inv_init encode disk kf) as Hinit.
  set (t0 := {| m := {| path := path disk; files := files disk;
                        faults := tail (faults disk); calls := calls disk |};
                sts := ∅; keyf := kf |}) in *.
  destruct (loaded_walk kf (files disk) Hrt t0 t')
    as ((Hkf & Hmono & _) & Hne & Hsrc); [|done|].
  { split; [done|]. split; [apply no_empty_empty|]. intros a b c x.
    by rewrite /leaf /= lookup_empty /= lookup_empty. }
  split; [|done].
  intros d f bts Hc Hsfx.
  destruct (replay_walk_loaded kf (files disk) Hrt d f bts t0 t' Hinit Hnew Hc
              Hsfx) as (x & Hx & [y Hy]).
  exists x. split; [done|]. rewrite Hy. f_equal.
  destruct (Hsrc _ _ _ _ Hy) as (Hky & d' & f' & bts' & Hc' & Hsfx' & Hy').
  destruct (decide ((d', f') = (d, f))) as [E|E].
  { injection E as -> ->. rewrite /content in Hc. congruence. }
  destruct (replay_walk_no_clash encode decode kf (files disk) Hrt
              d' f' d f bts' bts y x t0 t' Hinit Hnew Hc' Hc Hsfx' Hsfx Hy' Hx);
    [|done].
  rewrite Hky. by destruct (kf x) as [[? ?] ?].
Qed.

(** X13: over a directory with nothing in it, whose opening does not fail,
    [New] returns the empty store and no error, without a call to the file
    store, when the name of the directory does not end in [.json]; when it
    does, [New] does not return without error, for it takes the directory
    itself for a record. *)
Theorem New_empty_directory disk (kf : KeyFunc Token) :
  files disk = ∅ →
  mjoin (head (faults disk)) = None →
  (HasSuffix (default "" (last (path disk))) ".json" = false →
   New encode decode disk kf =
     Returned None
       {| m := {| path := path disk; files := ∅;
                  faults := tail (faults disk); calls := calls disk |};
          sts := ∅; keyf := kf |}) ∧
  (HasSuffix (default "" (last (path disk))) ".json" = true →
   ¬ ok (New encode decode disk kf)).
Proof.
  intros Hf Hopen. rewrite /New Hopen /walk.
  cbn [m files path]. rewrite Hf map_to_list_empty.
  change (sort_names ([] : list (string * gmap string Bytes)).*1)
    with ([] : list string).
  cbn [foldl]. split; intros Hsfx.
  - by rewrite walkfn_skip.
  - rewrite /walkfn Hsfx /=. intros [t' Hok].
    destruct (last_two (path disk)) as [ps|]; [|done].
    rewrite /fsdir_Get /fs_enter /= in Hok.
    destruct (mjoin (head (tail (faults disk)))); [done|].
    by destruct ps as [|d [|f [|? ?]]].
Qed.

(** ** The directory *)




(** X15: reloading leaves the directory as it is.  Under the conditions of
    the reload (a serialisation that round-trips, tokens with distinct
    [(k1, k3)] and storable keys added with success to an empty directory
    whose name does not end in [.json]), [New] over the directory returns
    without error and the files are, name for name and byte for byte, the
    files it found. *)
Theorem New_keeps_directory (ts : list Token) fs0 (kf : KeyFunc Token) :
  (∀ x, decode (encode x) = Some x) →
  files fs0 = ∅ →
  HasSuffix (default "" (last (path fs0))) ".json" = false →
  Forall (storable kf) ts →
  NoDup (disk_keys kf <$> ts) →
  Forall (λ r, r = None) (results encode (OpAdd <$> ts) (init fs0 kf)) →
  let t := run encode (OpAdd <$> ts) (init fs0 kf) in
  ∃ t', New encode decode (reopen (m t)) kf = Returned None t' ∧
        files (m t') = files (m t) ∧
        path (m t') = path (m t).
Proof.
  intros Hrt Hf0 Hroot Hstor Hnd Hok t.
  destruct (adds_layout encode ts fs0 kf Hf0 Hnd Hok)
    as (Hkf & Hpath & Hne & Hdirs & Hleaf & Hcont).
  fold t in Hkf, Hpath, Hne, Hdirs, Hleaf, Hcont.
  set (t0 := {| m := {| path := path (m t); files := files (m t);
                        faults := []; calls := [] |};
                sts := ∅; keyf := kf |}).
  assert (reload_inv kf ts (files (m t)) (path (m t)) ∅ t0) as Hinv.
  { split; [done|]. split; [done|]. split; [done|]. split; [done|].
    split; [apply no_empty_empty|]. intros a b c x.
    rewrite /leaf /= lookup_empty /= lookup_empty. split; [done|].
    by intros (_ & _ & ?%not_elem_of_empty). }
  destruct (reload_dirs encode decode kf ts (files (m t)) (path (m t)) Hrt
              Hstor Hnd Hcont Hdirs
              (sort_names (map_to_list (files (m t))).*1) t0 ∅)
    as (t' & X' & Hfold & (HF & _ & Hp & _) & _); [| | |done|].
  { apply NoDup_sort_names, NoDup_fst_map_to_list. }
  { intros d. by rewrite elem_of_sort_names elem_of_keys. }
  { intros d f _. apply not_elem_of_empty. }
  exists t'. split; [|done].
  rewrite /New /= /walk -/t0 (walkfn_skip encode decode (path (m t0))) //.
  by rewrite /= Hpath.
Qed.

(** X16: [Del] of a token whose leaf is taken lowers the count of
    [SettlingAt rpk] by one when the token of the leaf is settling and its
    second key is [rpk] (or [rpk] is the empty string), and leaves the
    result as it was otherwise. *)
Theorem SettlingAt_after_Del st t k1 k2 k3 old rpk utime :
  keyf t st = (k1, k2, k3) →
  leaf (sts t) k1 k2 k3 = Some old →
  SettlingAt IsSettlingAt rpk utime t =
    if key_matches rpk k2 && IsSettlingAt old utime
    then {[rpk := Z.of_nat
             (S (length (filter (λ st, IsSettlingAt st utime = true)
                                (Filter "" rpk (Del st t).2))))]}
    else SettlingAt IsSettlingAt rpk utime (Del st t).2.
Proof.
  intros Hk Hold. rewrite !SettlingAt_counted.
  rewrite (Filter_perm_entries "" rpk t _
             (entries_Del st t k1 k2 k3 old Hk Hold)).
  rewrite (Filter_is_spec "" rpk (Del st t).2) /Filter_spec.
  destruct (key_matches rpk k2) eqn:Ek; simpl;
    [|by rewrite filter_cons_False //= Ek].
  rewrite (filter_cons_True _ (k1, k2, k3, old)) /=; [|by rewrite Ek].
  destruct (IsSettlingAt old utime) eqn:E.
  - by rewrite filter_cons_True.
  - rewrite filter_cons_False //. by rewrite E.
Qed.


End Further.

(** * The further properties at the instance *)

Lemma Add_success_witness :
  ∃ t', Add Example.enc Example.a1 Example.t0 = (None, t') ∧
        leaf (sts t') "c1" "r1" "s1" = Some Example.a1 ∧
        Example.a1 ∈ Filter "c1" "r1" t' ∧
        content (m t') "c1" "s1.json" = Some (Example.enc Example.a1) ∧
        (∀ d f, (d, f) ≠ ("c1", "s1.json") →
                content (m t') d f = content (m Example.t0) d f) ∧
        calls (m t') = [CallSet ["c1"; "s1.json"]].
Proof.
  apply (Add_success Example.enc Example.a1 Example.t0 "c1" "r1" "s1");
    reflexivity.
Defined.

Lemma Add_touches_one_free_leaf_witness :
  leaf (sts (Add Example.enc Example.a2 Example.t1).2) "c1" "r1" "s1"
    = Some Example.a1 ∧
  leaf (sts (Add Example.enc Example.a2 Example.t1).2) "c2" "r1" "s3"
    = leaf (sts Example.t1) "c2" "r1" "s3" ∧
  leaf (sts (Add Example.enc Example.a2 Example.t1).2) "c1" "r2" "s2"
    = Some Example.a2.
Proof.
  destruct (Add_touches_one_free_leaf Example.enc Example.a2 Example.t1)
    as (Hkeep & Hother & Hnew & _).
  split; [apply Hkeep; reflexivity|].
  split; [apply Hother; discriminate|apply Hnew; reflexivity].
Defined.

Lemma error_results_witness :
  (Add Example.enc Example.a1 Example.t1).1 = Some DuplicateSTError ∧
  (Del Example.a2 Example.t1).1 = None.
Proof.
  split.
  - apply (error_results Example.enc Example.a1 Example.t1).
    exists Example.a1. reflexivity.
  - apply (error_results Example.enc Example.a2 Example.t1). reflexivity.
Defined.

Lemma Add_Del_restores_index_witness :
  sts (Del Example.a2 (Add Example.enc Example.a2 Example.t1).2).2
    = sts Example.t1 ∧
  ∀ k1 k2,
    Filter k1 k2 (Del Example.a2 (Add Example.enc Example.a2 Example.t1).2).2
    = Filter k1 k2 Example.t1.
Proof.
  apply (Add_Del_restores_index Example.enc Example.a2 Example.t1);
    [|reflexivity|reflexivity].
  apply (Add_no_empty Example.enc Example.a1 Example.t0), no_empty_empty.
Defined.

Lemma Filter_after_Add_witness :
  Filter "c1" "" (Add Example.enc Example.a2 Example.t1).2 ≡ₚ
    [Example.a2] ++ Filter "c1" "" Example.t1.
Proof.
  apply (Filter_after_Add Example.enc Example.a2 Example.t1 "c1" "r2" "s2"
           "c1" ""); reflexivity.
Defined.

Lemma Filter_after_Del_witness :
  Filter "" "" Example.t3 ≡ₚ
    [Example.a2] ++ Filter "" "" (Del Example.a2 Example.t3).2.
Proof.
  apply (Filter_after_Del Example.a2 Example.t3 "c1" "r2" "s2" Example.a2
           "" ""); reflexivity.
Defined.

Lemma SettlingAt_after_Add_witness :
  SettlingAt Example.settling "r1" 35
    (Add Example.enc Example.a3 Example.t1).2 = {["r1" := 1%Z]}.
Proof.
  apply (SettlingAt_after_Add Example.enc Example.settling Example.a3
           Example.t1 "c2" "r1" "s3" "r1" 35%Z); reflexivity.
Defined.

Lemma Filter_in_keyed_store_witness :
  NoDup (Filter "" "r1" Example.t3) ∧
  ∀ st, st ∈ Filter "" "r1" Example.t3 →
        leaf (sts Example.t3) (keyf Example.t3 st).1.1
             (keyf Example.t3 st).1.2 (keyf Example.t3 st).2 = Some st ∧
        ("" = "" ∨ "" = (keyf Example.t3 st).1.1) ∧
        ("r1" = "" ∨ "r1" = (keyf Example.t3 st).1.2).
Proof.
  apply (Filter_in_keyed_store Example.t3 "" "r1").
  apply keyed_run, keyed_init.
Defined.

Lemma Filter_nothing_witness :
  Filter "c9" "r1" Example.t3 = [] ∧ Filter "c2" "r2" Example.t3 = [].
Proof.
  split.
  - destruct (Filter_nothing Example.t3 "c9" "r1") as (_ & Hk1 & _).
    apply Hk1; [discriminate|reflexivity].
  - destruct (Filter_nothing Example.t3 "c2" "r2") as (_ & _ & Hk2).
    apply Hk2; [discriminate|discriminate|reflexivity].
Defined.

Lemma New_ok_loaded_witness :
  (∀ d f bts,
     content (reopen (m Example.t3)) d f = Some bts →
     HasSuffix f ".json" = true →
     ∃ x, Example.dec bts = Some x ∧
          leaf (sts Example.t3_reloaded) (Example.key3 x).1.1
               (Example.key3 x).1.2 (Example.key3 x).2 = Some x) ∧
  (∀ a b c x,
     leaf (sts Example.t3_reloaded) a b c = Some x →
     Example.key3 x = (a, b, c) ∧
     ∃ d f bts, content (reopen (m Example.t3)) d f = Some bts ∧
                HasSuffix f ".json" = true ∧ Example.dec bts = Some x) ∧
  no_empty (sts Example.t3_reloaded) ∧
  keyf Example.t3_reloaded = Example.key3 ∧
  (∀ d f, is_Some (content (reopen (m Example.t3)) d f) →
          is_Some (content (m Example.t3_reloaded) d f)).
Proof.
  apply (New_ok_loaded Example.enc Example.dec (reopen (m Example.t3))
           Example.key3 Example.t3_reloaded);
    [reflexivity|vm_compute; reflexivity].
Defined.

Lemma New_empty_directory_witness :
  New Example.enc Example.dec Example.disk0 Example.key3 =
    Returned None
      {| m := {| path := Example.root; files := ∅; faults := [];
                 calls := [] |};
         sts := ∅; keyf := Example.key3 |}.
Proof.
  apply (New_empty_directory Example.enc Example.dec Example.disk0
           Example.key3); reflexivity.
Defined.


Lemma New_keeps_directory_witness :
  ∃ t', New Example.enc Example.dec (reopen (m Example.t3)) Example.key3
          = Returned None t' ∧
        files (m t') = files (m Example.t3) ∧
        path (m t') = path (m Example.t3).
Proof.
  apply (New_keeps_directory Example.enc Example.dec
           [Example.a1; Example.a2; Example.a3] Example.disk0 Example.key3);
    [reflexivity|reflexivity|reflexivity| | |].
  - repeat constructor.
  - apply (bool_decide_unpack _). vm_compute. exact I.
  - repeat constructor.
Defined.

Lemma SettlingAt_after_Del_witness :
  SettlingAt Example.settling "r1" 35 Example.t3 = {["r1" := 1%Z]}.
Proof.
  apply (SettlingAt_after_Del Example.settling Example.a3 Example.t3
           "c2" "r1" "s3" Example.a3 "r1" 35%Z); reflexivity.
Defined.

